(** * Listen, Attend and Spell: the Speller decode loop and the LAS wrapper

    A shallow embedding of [las/las.py], [utils/text.py] and the tokenizer
    set-up of [preprocess.py].

    Conventions of the embedding.

    - Float tensors hold rationals ([Q]): the rounding of float32 sums and
      products is not modelled.  The one place where rounding decides an
      integer is the step count of [inference]: it is computed on IEEE
      binary32 values and cast to a 32-bit integer.
    - A tensor with a time axis (axis 1), such as the logits [(B, T, V)] or
      the teacher tokens [(B, T)], is kept as the list of its [T] slices
      along that axis; [tf.concat(_, 1)] is list append and [x[:, 1:, :]]
      drops the head.  The encoder output [(B, T', H)] is only measured
      along axis 0 and is kept as the list of its [B] utterances.
    - The numeric kernels of the framework (recurrent cell, the units of
      the dense layer, samplers, cross-entropy) and the helpers of
      [las.utils] are fields of the class [Backend].  The embedding table
      and the output of the dense layer have the shape the code gives
      them.  Modelled failures: a token id outside the embedding table, a
      slice outside the teacher tokens, an argmax over an empty axis, the
      structure of the decoder state and a zero denominator; other
      failures inside a kernel are not.
    - Random ops thread an explicit generator state [Rng].
    - [tf.while_loop] takes fuel; [OutOfFuel] is kept apart from failures. *)

From Stdlib Require Import ZArith QArith Lia.
From Stdlib Require SpecFloat.
From stdpp Require Import base option list gmap strings pretty.

Local Open Scope Z_scope.

(** ** Outcomes of a run *)

Inductive failure : Type :=
  | InvalidArgumentError   (* raised by a kernel when the graph runs *)
  | ValueError             (* raised while the graph is built *)
  | IndexError             (* a Python index outside a tuple *)
  | NotANumber.            (* a float division by zero: NaN or Inf *)

Inductive run (A : Type) : Type :=
  | Returns (a : A)
  | Raises (e : failure)
  | OutOfFuel.

Arguments Returns {A} a.
Arguments Raises {A} e.
Arguments OutOfFuel {A}.

#[global] Instance run_ret : MRet run := fun _ a => Returns a.

#[global] Instance run_bind : MBind run := fun _ _ f m =>
  match m with
  | Returns a => f a
  | Raises e => Raises e
  | OutOfFuel => OutOfFuel
  end.

#[global] Instance run_fmap : FMap run := fun _ _ f m =>
  match m with
  | Returns a => Returns (f a)
  | Raises e => Raises e
  | OutOfFuel => OutOfFuel
  end.

(** [tf.while_loop(cond, body, loop_vars)]. *)
Fixpoint while_loop {St : Type} (cond : St -> bool) (body : St -> run St)
    (s : St) (fuel : nat) : run St :=
  if cond s then
    match fuel with
    | O => OutOfFuel
    | S fuel' => s' ← body s; while_loop cond body s' fuel'
    end
  else Returns s.

(** ** Tensors *)

Definition vector : Type := list Q.
Definition matrix : Type := list vector.      (* [B, D], one row per utterance *)
Definition ids : Type := list Z.              (* [B], int32 *)

(** What [_get_hidden_state] hands to attention: a [B, D] matrix, or the
    rank-1 row that indexing a matrix yields. *)
Inductive tensor : Type :=
  | Rank1 (v : vector)
  | Rank2 (m : matrix).

Definition zeros (rows cols : nat) : matrix := replicate rows (replicate cols 0%Q).

Definition ones (n : nat) : ids := replicate n 1.

(** [tf.concat(ms, -1)] on matrices sharing their batch dimension. *)
Fixpoint concat_last (ms : list matrix) : matrix :=
  match ms with
  | [] => []
  | [m] => m
  | m :: ms' => zip_with app m (concat_last ms')
  end.

(** The decoder state as the cell hands it out: one tensor for a single
    cell, a tuple of tensors for a [MultiRNNCell(state_is_tuple=True)]. *)
Inductive DecoderState : Type :=
  | StTensor (h : matrix)
  | StTuple (hs : list matrix).

(** [tf.concat(values, axis)]: a lone tensor is wrapped into a list, and a
    list of one tensor is returned as it is. *)
Definition tf_concat_state (values : DecoderState) : run tensor :=
  match values with
  | StTensor h => Returns (Rank2 h)
  | StTuple [] => Raises ValueError
  | StTuple hs => Returns (Rank2 (concat_last hs))
  end.

(** [dec_state[1]]: the second member of a tuple, the second row of a
    tensor. *)
Definition getitem_1 (dec_state : DecoderState) : run tensor :=
  match dec_state with
  | StTuple hs =>
      match hs !! 1%nat with
      | Some h => Returns (Rank2 h)
      | None => Raises IndexError
      end
  | StTensor h =>
      match h !! 1%nat with
      | Some row => Returns (Rank1 row)
      | None => Raises InvalidArgumentError
      end
  end.

(** [teacher[:, t]] on the list of time slices. *)
Definition slice_time (teacher : list ids) (t : Z) : run ids :=
  if t <? 0 then Raises InvalidArgumentError
  else match teacher !! Z.to_nat t with
       | Some col => Returns col
       | None => Raises InvalidArgumentError
       end.

(** [x > y] on floats. *)
Definition Qgtb (x y : Q) : bool := negb (Qle_bool x y).

(** [tf.nn.embedding_lookup(params, ids)]: the rows of [params] at [ids];
    an id outside the table fails the run. *)
Definition embedding_lookup (params : matrix) (char : ids) : run matrix :=
  mapM (fun id =>
          if id <? 0 then Raises InvalidArgumentError
          else match params !! Z.to_nat id with
               | Some row => Returns row
               | None => Raises InvalidArgumentError
               end) char.

(** The position of the largest entry of a row, the first one on a tie. *)
Fixpoint argmax_from (rest : vector) (i best : Z) (top : Q) : Z :=
  match rest with
  | [] => best
  | x :: rest' =>
      if Qgtb x top then argmax_from rest' (i + 1) i x
      else argmax_from rest' (i + 1) best top
  end.

Definition argmax_row (row : vector) : Z := argmax_from (tail row) 1 0 (hd 0%Q row).

(** [tf.argmax(x, -1)] on a [B, width] slice: the reduced axis must not be
    empty.  [width] is the static size of that axis, which the rows of an
    empty batch no longer show. *)
Definition argmax (width : Z) (x : matrix) : run ids :=
  if width <=? 0 then Raises InvalidArgumentError else Returns (map argmax_row x).

(** [tf.argmax(x, -1)] on the [(B, T, width)] logits. *)
Definition argmax_logits (width : Z) (x : list matrix) : run (list ids) :=
  if width <=? 0 then Raises InvalidArgumentError else Returns (map (map argmax_row) x).

(** Python truth value of an int. *)
Definition truthy (n : Z) : bool := negb (n =? 0).

(** ** The scalars of the step count

    [inference] multiplies in float32 and casts to int32.  A float is an
    IEEE value of the standard library's [SpecFloat]; binary64 has 53
    bits of precision, binary32 has 24. *)

Definition float : Type := SpecFloat.spec_float.

(** A Python float: the binary64 nearest to the number written. *)
Definition python_float (q : Q) : float :=
  match Qnum q with
  | Z0 => SpecFloat.S754_zero false
  | Zpos n =>
      SpecFloat.SFdiv 53 1024 (SpecFloat.S754_finite false n 0)
        (SpecFloat.S754_finite false (Qden q) 0)
  | Zneg n =>
      SpecFloat.SFdiv 53 1024 (SpecFloat.S754_finite true n 0)
        (SpecFloat.S754_finite false (Qden q) 0)
  end.

(** A Python float handed to a float32 op: the nearest binary32. *)
Definition float32_of_python (x : float) : float :=
  match x with
  | SpecFloat.S754_finite s m e => SpecFloat.binary_round 24 128 s m e
  | _ => x
  end.

Definition int32_min : Z := - 2 ^ 31.

Definition int32_max : Z := 2 ^ 31 - 1.

(** [tf.reduce_max] of an int32 vector; the lowest int32 when it is empty. *)
Definition reduce_max (x : list Z) : Z := foldr Z.max int32_min x.

(** [tf.to_float] of an int32: the nearest binary32. *)
Definition to_float (n : Z) : float := SpecFloat.binary_normalize 24 128 n 0 false.

(** [tf.multiply(x, y)] of a Python float and a float32 scalar. *)
Definition tf_multiply_scalar (x y : float) : float :=
  SpecFloat.SFmul 24 128 (float32_of_python x) y.

(** [tf.to_int32] of a float32: the fraction is dropped (toward zero); a
    value outside int32, an infinity or a NaN gives the lowest int32, as
    the CPU cast does. *)
Definition to_int32 (x : float) : Z :=
  match x with
  | SpecFloat.S754_zero _ => 0
  | SpecFloat.S754_finite s m e =>
      let n := Z.shiftl (Zpos m) e in
      let n := if s then - n else n in
      if (int32_min <=? n) && (n <=? int32_max) then n else int32_min
  | _ => int32_min
  end.

(** ** Configuration *)

Record Args : Type := {
  num_enc_layers : Z;
  enc_units : Z;
  num_dec_layers : Z;
  dec_units : Z;
  dropout_rate : Q;
  embedding_size : Z;
  vocab_size : Z;
  teacher_forcing_rate : Q;
  convert_rate : Q;       (* the number written; the program holds a Python float *)
  vocab : option Z        (* an attribute the parser does not define *)
}.

(** [args.vocab = v] on the shared [args] object. *)
Definition set_vocab (v : Z) (args : Args) : Args :=
  {| num_enc_layers := num_enc_layers args;
     enc_units := enc_units args;
     num_dec_layers := num_dec_layers args;
     dec_units := dec_units args;
     dropout_rate := dropout_rate args;
     embedding_size := embedding_size args;
     vocab_size := vocab_size args;
     teacher_forcing_rate := teacher_forcing_rate args;
     convert_rate := convert_rate args;
     vocab := Some v |}.

(** The output of the Listener: [(enc_out, enc_state, enc_len)]. *)
Definition EncoderOutput : Type := (list matrix * matrix * list Z)%type.

(** ** The numeric backend *)

Class Backend : Type := {
  Rng : Type;
  (* tf.random_uniform([], minval=0, maxval=1) *)
  random_uniform : Rng -> Q * Rng;
  (* tf.distributions.Categorical(logits=char).sample(1)[0] *)
  categorical_sample : matrix -> Rng -> ids * Rng;
  (* tf.layers.dropout(x, rate, training=True) *)
  dropout : matrix -> Q -> Rng -> matrix * Rng;
  (* BasicRNNCell(num_units)(inputs, state), by position in the stack *)
  basic_rnn_cell : nat -> Z -> matrix -> matrix -> matrix;
  (* output unit [k] of the layer of tf.layers.dense, on one row *)
  dense_unit : nat -> vector -> Q;
  (* tf.nn.softmax_cross_entropy_with_logits at one position *)
  softmax_cross_entropy_with_logits : vector -> vector -> Q;
  (* the same kernel on logits and labels of different shapes: it pairs
     the rows of the two flattened operands, or raises *)
  softmax_cross_entropy_reshaped : list matrix -> list matrix -> run (list vector);
  (* x * y on operands of different shapes: broadcasting, or an error *)
  multiply_broadcast : list vector -> list vector -> run (list vector);
  (* las.utils.attention(h, state, h_dim, s_dim, seq_len): (context, alphas),
     a function of its arguments, with no random op, as the design of the
     attention module describes it *)
  attention : list matrix -> tensor -> Z -> Z -> list Z -> matrix * matrix;
  (* las.utils.pblstm without and with its dropout *)
  pblstm_plain : list matrix -> list Z -> Z -> Z -> EncoderOutput;
  pblstm_dropout : list matrix -> list Z -> Z -> Z -> Q -> Rng -> EncoderOutput * Rng;
  (* the entry [i, j] of the variable embedding/embedding_matrix *)
  embedding_value : nat -> nat -> Q;
  (* a sample is a class of its row: one id for each row, inside the row *)
  categorical_sample_in_range : forall (char : matrix) (rng : Rng),
    Forall2 (fun (row : vector) (id : Z) => row <> [] -> 0 <= id < Z.of_nat (length row))
      char (categorical_sample char rng).1
}.

Section Model.

Context {K : Backend}.

(** ** Listener *)

(** Modelled from the spec: [pblstm] is defined in [las.utils], outside
    the files embedded here.  "Dropout (rate configurable) is applied
    between layers only during training." *)
Definition pblstm (inputs : list matrix) (audiolen : list Z) (num_layers units : Z)
    (rate : Q) (is_training : bool) (rng : Rng) : EncoderOutput * Rng :=
  if is_training then pblstm_dropout inputs audiolen num_layers units rate rng
  else (pblstm_plain inputs audiolen num_layers units, rng).

Record Listener : Type := { Listener_args : Args }.

Definition Listener_init (args : Args) : Listener := {| Listener_args := args |}.

Definition Listener_call (self : Listener) (inputs : list matrix) (audiolen : list Z)
    (is_training : bool) (rng : Rng) : EncoderOutput * Rng :=
  pblstm inputs audiolen (num_enc_layers (Listener_args self))
    (enc_units (Listener_args self)) (dropout_rate (Listener_args self))
    is_training rng.

(** ** The decoder cell *)

Inductive rnn_cell : Type :=
  | BasicRNNCell (num_units : Z)
  | MultiRNNCell (cells : list Z).     (* the units of each stacked BasicRNNCell *)

Definition _build_decoder_cell (args : Args) : rnn_cell :=
  if 1 <? num_dec_layers args
  then MultiRNNCell (replicate (Z.to_nat (num_dec_layers args)) (dec_units args))
  else BasicRNNCell (dec_units args).

Definition zero_state (cell : rnn_cell) (batch : nat) : DecoderState :=
  match cell with
  | BasicRNNCell units => StTensor (zeros batch (Z.to_nat units))
  | MultiRNNCell cells => StTuple (map (fun units => zeros batch (Z.to_nat units)) cells)
  end.

(** The body of [MultiRNNCell.call]: layer [i] reads [state[i]] and feeds
    its output to layer [i + 1]. *)
Fixpoint multi_rnn_call (i : nat) (cells : list Z) (cur_inp : matrix)
    (state : list matrix) : run (matrix * list matrix) :=
  match cells with
  | [] => Returns (cur_inp, [])
  | units :: cells' =>
      match state with
      | [] => Raises IndexError
      | cur_state :: state' =>
          let new_state := basic_rnn_cell i units cur_inp cur_state in
          '(out, new_states) ← multi_rnn_call (S i) cells' new_state state';
          Returns (out, new_state :: new_states)
      end
  end.

Definition cell_call (cell : rnn_cell) (inputs : matrix) (state : DecoderState)
    : run (matrix * DecoderState) :=
  match cell, state with
  | BasicRNNCell units, StTensor h =>
      let output := basic_rnn_cell 0 units inputs h in
      Returns (output, StTensor output)
  | MultiRNNCell cells, StTuple hs =>
      '(out, new_states) ← multi_rnn_call 0 cells inputs hs;
      Returns (out, StTuple new_states)
  | _, _ => Raises ValueError
  end.

(** ** Speller *)

Record Speller : Type := {
  Speller_args : Args;
  Speller_char2id : gmap string nat;
  hidden_size : Z;
  dec_cell : rnn_cell;
  embedding_matrix : matrix
}.

(** [tf.get_variable('embedding_matrix', shape=[rows, cols])]. *)
Definition embedding_variable (rows cols : Z) : matrix :=
  map (fun i => map (fun j => embedding_value i j) (seq 0 (Z.to_nat cols)))
      (seq 0 (Z.to_nat rows)).

Definition _build_char_embeddings (args : Args) : matrix :=
  embedding_variable (vocab_size args) (embedding_size args).

Definition Speller_init (args : Args) (char2id : gmap string nat) : Speller :=
  {| Speller_args := args;
     Speller_char2id := char2id;
     hidden_size := enc_units args * 2;
     dec_cell := _build_decoder_cell args;
     embedding_matrix := _build_char_embeddings args |}.

Definition _look_up (self : Speller) (char : ids) : run matrix :=
  embedding_lookup (embedding_matrix self) char.

Definition _sample_char (self : Speller) (char : matrix) (rng : Rng) : run (matrix * Rng) :=
  let '(sampled_char, rng') := categorical_sample char rng in
  embedded ← _look_up self sampled_char;
  Returns (embedded, rng').

Definition _get_hidden_state (self : Speller) (dec_state : DecoderState) : run tensor :=
  if 0 <? num_dec_layers (Speller_args self)
  then tf_concat_state dec_state
  else getitem_1 dec_state.

(** [tf.layers.dense(x, units, use_bias=True)]: [units] outputs for each
    row of [x]. *)
Definition dense (x : matrix) (units : Z) : matrix :=
  map (fun row => map (fun k => dense_unit k row) (seq 0 (Z.to_nat units))) x.

(** One decode step: [(cur_char, dec_state, alphas)]. *)
Definition decode (self : Speller) (enc_out : list matrix) (enc_len : list Z)
    (dec_state : DecoderState) (prev_char : matrix) (is_training : bool)
    : run (matrix * DecoderState * matrix) :=
  s_i ← _get_hidden_state self dec_state;
  let '(context, alphas) :=
    attention enc_out s_i (hidden_size self)
      (dec_units (Speller_args self) * num_dec_layers (Speller_args self)) enc_len in
  let dec_in := concat_last [prev_char; context] in
  '(dec_out, dec_state') ← cell_call (dec_cell self) dec_in dec_state;
  let cur_char := dense dec_out (vocab_size (Speller_args self)) in
  Returns (cur_char, dec_state', alphas).

(** The two ways [__call__] is invoked: [is_training=True] carries the
    teacher tokens it slices; [is_training=False] never reads them. *)
Inductive Mode : Type :=
  | Training (teacher : list ids)
  | Inference.

Definition is_training (mode : Mode) : bool :=
  match mode with Training _ => true | Inference => false end.

(** [tf.layers.dropout(x, rate, training)]. *)
Definition tf_layers_dropout (x : matrix) (rate : Q) (training : bool) (rng : Rng)
    : matrix * Rng :=
  if training then dropout x rate rng else (x, rng).

(** The loop variables [(t, rnn_state, prev_char, output)] and the
    generator state the random ops of the body advance. *)
Definition loop_vars : Type := (Z * DecoderState * matrix * list matrix)%type.

(** How the training branch picks the next input: the operand of
    [tf.cond] and its two branches. *)
Definition next_input_training (self : Speller) (teacher : list ids) (t : Z)
    (cur_char : matrix) (rng : Rng) : run (matrix * Rng) :=
  let '(u, rng1) := random_uniform rng in
  let condition := Qgtb (teacher_forcing_rate (Speller_args self)) u in
  '(prev_char, rng2) ←
    (if condition
     then col ← slice_time teacher t;
          embedded ← _look_up self col;
          Returns (embedded, rng1)
     else _sample_char self cur_char rng1);
  Returns (tf_layers_dropout prev_char (dropout_rate (Speller_args self)) true rng2).

Definition iteration (self : Speller) (enc_out : list matrix) (enc_len : list Z)
    (mode : Mode) (s : loop_vars * Rng) : run (loop_vars * Rng) :=
  let '((t, rnn_state, prev_char, output), rng) := s in
  '(cur_char, rnn_state', alphas) ←
    decode self enc_out enc_len rnn_state prev_char (is_training mode);
  '(prev_char', rng') ←
    match mode with
    | Training teacher => next_input_training self teacher t cur_char rng
    | Inference =>
        greedy ← argmax (vocab_size (Speller_args self)) cur_char;
        embedded ← _look_up self greedy;
        Returns (embedded, rng)
    end;
  let output' := output ++ [cur_char] in
  Returns ((t + 1, rnn_state', prev_char', output'), rng').

Definition is_stop (dec_steps : Z) (s : loop_vars * Rng) : bool :=
  let '((t, _, _, _), _) := s in t <? dec_steps.

(** The nest of shapes given to [tf.while_loop] for the decoder state. *)
Inductive state_shape : Type :=
  | ShapeTensor
  | ShapeTuple (n : nat).

Definition shape_state (args : Args) : state_shape :=
  if 1 <? num_dec_layers args
  then ShapeTuple (Z.to_nat (num_dec_layers args))
  else ShapeTensor.

Definition same_structure (shape : state_shape) (state : DecoderState) : bool :=
  match shape, state with
  | ShapeTensor, StTensor _ => true
  | ShapeTuple n, StTuple hs => Nat.eqb n (length hs)
  | _, _ => false
  end.

(** The loop variables at loop entry. *)
Definition Speller_entry (self : Speller) (enc_out : list matrix) : run loop_vars :=
  let batch := length enc_out in
  init_char ← _look_up self (ones batch);
  let init_state := zero_state (dec_cell self) batch in
  let init_t := 0 in
  let output := [zeros batch (Z.to_nat (vocab_size (Speller_args self)))] in
  Returns (init_t, init_state, init_char, output).

(** The [tf.while_loop] of [__call__].  The structure of the state is
    checked against [shape_state] while the graph is built, before any
    kernel runs. *)
Definition Speller_loop (self : Speller) (enc_out : list matrix) (enc_len : list Z)
    (dec_steps : Z) (mode : Mode) (rng : Rng) (fuel : nat) : run (loop_vars * Rng) :=
  if same_structure (shape_state (Speller_args self))
       (zero_state (dec_cell self) (length enc_out))
  then init ← Speller_entry self enc_out;
       while_loop (is_stop dec_steps) (iteration self enc_out enc_len mode) (init, rng) fuel
  else Raises ValueError.

Definition Speller_call (self : Speller) (enc_out : list matrix) (enc_len : list Z)
    (dec_steps : Z) (mode : Mode) (rng : Rng) (fuel : nat) : run (list matrix * Rng) :=
  '((t, dec_state, prev_char, output), rng') ←
    Speller_loop self enc_out enc_len dec_steps mode rng fuel;
  let logits := tail output in
  Returns (logits, rng').

(** ** LAS *)

Record LAS : Type := {
  LAS_args : Args;
  LAS_listener : Listener;
  LAS_speller : Speller;
  LAS_char2id : gmap string nat;
  LAS_id2char : gmap nat string
}.

(** [args] is one object: the caller, [self.args], the listener and the
    speller all hold the reference that the first statement assigns
    through, so [LAS_args] of the result is also what the caller sees
    afterwards.  The [listener] and [speller] passed in are dropped. *)
Definition LAS_init (args : Args) (listener : Listener) (speller : Speller)
    (char2id : gmap string nat) (id2char : gmap nat string) : LAS :=
  let args :=
    if negb (truthy (vocab_size args))
    then set_vocab (Z.of_nat (size char2id)) args
    else args in
  {| LAS_args := args;
     LAS_listener := Listener_init args;
     LAS_speller := Speller_init args char2id;
     LAS_char2id := char2id;
     LAS_id2char := id2char |}.

(** *** Loss *)

Definition eps : Q := 1 # 1000000000.

Definition Qsum (l : list Q) : Q := foldr Qplus 0%Q l.

(** [tf.reduce_sum] of a [(B, T)] tensor kept as time slices. *)
Definition reduce_sum (x : list vector) : Q := Qsum (map Qsum x).

Definition one_hot_row (index depth : Z) : vector :=
  map (fun k => if Z.of_nat k =? index then 1%Q else 0%Q) (seq 0 (Z.to_nat depth)).

Definition tf_one_hot (y : list ids) (depth : Z) : list matrix :=
  map (map (fun index => one_hot_row index depth)) y.

(** The shape of a tensor kept as a list of lists: the length of each
    inner list. *)
Definition shape_of {A : Type} (x : list (list A)) : list nat := map length x.

(** [tf.nn.softmax_cross_entropy_with_logits(logits=logits, labels=labels)]:
    on operands of one shape, class axis included, the cross-entropy of
    each position. *)
Definition tf_softmax_cross_entropy (logits labels : list matrix) : run (list vector) :=
  if decide (map shape_of logits = map shape_of labels)
  then Returns (zip_with (zip_with softmax_cross_entropy_with_logits) logits labels)
  else softmax_cross_entropy_reshaped logits labels.

(** [x * y]: elementwise on two tensors of one shape. *)
Definition tf_multiply (x y : list vector) : run (list vector) :=
  if decide (shape_of x = shape_of y)
  then Returns (zip_with (zip_with Qmult) x y)
  else multiply_broadcast x y.

(** Float division: a zero divisor gives NaN or Inf. *)
Definition tf_divide (x y : Q) : run Q :=
  if Qeq_bool y 0 then Raises NotANumber else Returns (x / y)%Q.

(** [1 - tf.cast(tf.equal(y, 0), tf.float32)]. *)
Definition mask_of (y : list ids) : list vector :=
  map (map (fun token => (1 - (if token =? 0 then 1 else 0))%Q)) y.

Definition _get_loss (self : LAS) (logits : list matrix) (y : list ids)
    (charlen : list Z) : run Q :=
  let y_ := tf_one_hot y (vocab_size (LAS_args self)) in
  cross_entropy ← tf_softmax_cross_entropy logits y_;
  let mask_padding := mask_of y in
  weighted ← tf_multiply cross_entropy mask_padding;
  tf_divide (reduce_sum weighted) (reduce_sum mask_padding + eps)%Q.

(** *** Training and inference *)

(** The forward pass of [train]: the loss and the logits.  The optimizer
    step and the summaries are left out. *)
Definition LAS_train (self : LAS) (xs : list matrix * list Z) (ys : list ids * list Z)
    (rng : Rng) (fuel : nat) : run (Q * list matrix * Rng) :=
  let '(audio, audiolen) := xs in
  let '(y, charlen) := ys in
  let dec_steps := Z.of_nat (length y) in
  let '((h, enc_state, enc_len), rng1) :=
    Listener_call (LAS_listener self) audio audiolen true rng in
  '(logits, rng2) ←
    Speller_call (LAS_speller self) h enc_len dec_steps (Training y) rng1 fuel;
  loss ← _get_loss self logits y charlen;
  Returns (loss, logits, rng2).

Definition LAS_inference (self : LAS) (xs : list matrix * list Z)
    (rng : Rng) (fuel : nat) : run (list matrix * list ids * Rng) :=
  let '(audio, audiolen) := xs in
  let dec_steps :=
    tf_multiply_scalar (python_float (convert_rate (LAS_args self)))
      (to_float (reduce_max audiolen)) in
  let dec_steps := to_int32 dec_steps in
  let '((h, enc_state, enc_len), rng1) :=
    Listener_call (LAS_listener self) audio audiolen false rng in
  '(logits, rng2) ←
    Speller_call (LAS_speller self) h enc_len dec_steps Inference rng1 fuel;
  y_hat ← argmax_logits (vocab_size (LAS_args self)) logits;
  Returns (logits, y_hat, rng2).

End Model.

(** ** Tokens *)

Definition ascii_uppercase : string := "ABCDEFGHIJKLMNOPQRSTUVWXYZ".

(** [list(s)]: the characters of [s] as one-character strings. *)
Fixpoint chars (s : string) : list string :=
  match s with
  | EmptyString => []
  | String c s' => String c EmptyString :: chars s'
  end.

Fixpoint enumerate_from {A : Type} (i : nat) (l : list A) : list (nat * A) :=
  match l with
  | [] => []
  | x :: l' => (i, x) :: enumerate_from (S i) l'
  end.

Definition enumerate {A : Type} (l : list A) : list (nat * A) := enumerate_from 0 l.

Definition lookup_dicts (special_tokens : list string)
    : gmap string nat * gmap nat string :=
  let alphas := take 26 (chars ascii_uppercase) in
  let tokens := special_tokens ++ alphas in
  foldl (fun '(token_to_id, id_to_token) '(i, c) =>
           (<[c := i]> token_to_id, <[i := c]> id_to_token))
        (∅, ∅) (enumerate tokens).

(** The reserved tokens of [preprocess.py] ([main_ted] and [main_libri]). *)
Definition special_tokens : list string := ["<PAD>"; "<SOS>"; "<EOS>"; "<SPACE>"].

(** ** Vocabulary of the statements *)

Section Statements.

Context {K : Backend}.

(** The state has the structure its cell hands out. *)
Definition state_ok (cell : rnn_cell) (state : DecoderState) : Prop :=
  match cell, state with
  | BasicRNNCell _, StTensor _ => True
  | MultiRNNCell cells, StTuple hs => length hs = length cells
  | _, _ => False
  end.



(** [rows] are the rows of [table] at [tokens], one for each token. *)
Definition rows_of (table : matrix) (tokens : ids) (rows : matrix) : Prop :=
  Forall2 (fun id row => 0 <= id /\ table !! Z.to_nat id = Some row) tokens rows.

(** The step count of [inference]: the float32 product of the rate and the
    largest input length, cast to int32. *)
Definition decode_steps (rate : Q) (audiolen : list Z) : Z :=
  to_int32
    (SpecFloat.SFmul 24 128 (float32_of_python (python_float rate))
       (to_float (reduce_max audiolen))).

(** What a decode step does with the pair [(context, alphas)] that
    attention returns. *)
Definition attended_step (self : Speller) (dec_state : DecoderState) (prev_char : matrix)
    (attended : matrix * matrix) : run (matrix * DecoderState * matrix) :=
  '(dec_out, dec_state') ←
    cell_call (dec_cell self) (concat_last [prev_char; attended.1]) dec_state;
  Returns (dense dec_out (vocab_size (Speller_args self)), dec_state', attended.2).


(** Two tensors kept as slices agree on both of their axes. *)
Definition same_shape {A B : Type} (x : list (list A)) (y : list (list B)) : Prop :=
  Forall2 (fun a b => length a = length b) x y.

(** Every row of logits has one entry for each class. *)
Definition class_width (logits : list matrix) (classes : Z) : Prop :=
  Forall (Forall (fun row : vector => Z.of_nat (length row) = classes)) logits.

(** The cross-entropy terms of one time slice that sit at a token other
    than PAD (id 0). *)
Definition non_pad_row (cross_entropy : vector) (tokens : ids) : list Q :=
  map fst (List.filter (fun p => negb (p.2 =? 0)) (zip cross_entropy tokens)).

Definition non_pad_terms (cross_entropy : list vector) (y : list ids) : list Q :=
  concat (zip_with non_pad_row cross_entropy y).

Definition count_non_pad (y : list ids) : nat :=
  length (List.filter (fun token => negb (token =? 0)) (concat y)).

End Statements.

(** ** A small concrete backend

    Used to run the model on explicit inputs. *)

Module Toy.

(** The sampler that always draws the class in the middle of a row. *)
Definition middle_class (logits : matrix) : ids :=
  map (fun row => Z.of_nat (length row / 2)) logits.

Definition middle_class_in_range (logits : matrix) :
  Forall2 (fun (row : vector) (id : Z) => row <> [] -> 0 <= id < Z.of_nat (length row))
    logits (middle_class logits).
Proof.
  induction logits as [|row logits IH]; constructor; [|exact IH].
  intros Hrow. destruct row as [|x row]; [done|].
  pose proof (Nat.div_lt (length (x :: row)) 2 ltac:(cbn [length]; lia) ltac:(lia)). lia.
Qed.

(** The generator state is the list of uniform draws still to come. *)
#[export] Instance backend : Backend := {|
  Rng := list Q;
  random_uniform := fun rng => (hd 0%Q rng, tail rng);
  categorical_sample := fun logits rng => (middle_class logits, tail rng);
  dropout := fun x rate rng => (map (map (fun v => v / (1 - rate))%Q) x, tail rng);
  basic_rnn_cell := fun i units inputs state =>
    zip_with (fun x h => replicate (Z.to_nat units) (Qsum x + Qsum h)%Q) inputs state;
  dense_unit := fun k row => (inject_Z (Z.of_nat (S k)) * Qsum row)%Q;
  softmax_cross_entropy_with_logits := fun row label =>
    Qsum (zip_with (fun a b => a * b)%Q row label);
  softmax_cross_entropy_reshaped := fun logits labels => Raises InvalidArgumentError;
  multiply_broadcast := fun x y => Raises InvalidArgumentError;
  attention := fun h state h_dim s_dim seq_len =>
    (map (fun utt => default [] (head utt)) h, map (fun utt => map (fun _ => 0%Q) utt) h);
  pblstm_plain := fun inputs audiolen num_layers units => (inputs, [], audiolen);
  pblstm_dropout := fun inputs audiolen num_layers units rate rng =>
    ((inputs, [], audiolen), tail rng);
  embedding_value := fun i j => inject_Z (Z.of_nat i);
  categorical_sample_in_range := fun logits rng => middle_class_in_range logits
|}.

Definition args : Args :=
  {| num_enc_layers := 1; enc_units := 1; num_dec_layers := 1; dec_units := 2;
     dropout_rate := 0; embedding_size := 2; vocab_size := 6;
     teacher_forcing_rate := 1; convert_rate := 1 # 4; vocab := None |}.

(** The same with a vocabulary of one token, and with the falsy
    [vocab_size] that sends [LAS.__init__] to its fallback. *)
Definition args_one_token : Args :=
  {| num_enc_layers := 1; enc_units := 1; num_dec_layers := 1; dec_units := 2;
     dropout_rate := 0; embedding_size := 2; vocab_size := 1;
     teacher_forcing_rate := 1; convert_rate := 1 # 4; vocab := None |}.

Definition args_no_vocab_size : Args :=
  {| num_enc_layers := 1; enc_units := 1; num_dec_layers := 1; dec_units := 2;
     dropout_rate := 0; embedding_size := 2; vocab_size := 0;
     teacher_forcing_rate := 1; convert_rate := 1 # 4; vocab := None |}.


(** A vocabulary of 30 tokens, three output steps for four input frames,
    and teacher forcing for half of the draws. *)
Definition args_chars : Args :=
  {| num_enc_layers := 1; enc_units := 1; num_dec_layers := 2; dec_units := 2;
     dropout_rate := 1 # 10; embedding_size := 2; vocab_size := 30;
     teacher_forcing_rate := 1 # 2; convert_rate := 3 # 4; vocab := None |}.

(** One utterance of four frames, one feature each. *)
Definition audio : list matrix := [[[1]; [2]; [3]; [4]]]%Q.

End Toy.

(** * The tokenizer and the preprocessing

    [utils/text.py] and the functions of [preprocess.py] that prepare
    texts and features.

    - A Python [str] is a Rocq [string]; a character is a string of
      length one, as [list(sentence)] yields them.
    - An object whose attributes are set one by one has an optional field
      for each; reading one that is not set raises [AttributeError].
    - Exceptions are outcomes ([Throws]); these functions have no loop
      that could run on, so there is no fuel.
    - [librosa], [speechpy] and the directory tree are the classes
      [AudioLib] and [FileSystem]; what is written to disk is a list of
      events. *)

(** ** Python exceptions of the text and preprocessing code *)

Inductive exn : Type :=
  | KeyError (key : string)
  | AttributeError (name : string)
  | PlainException (msg : string)       (* raise Exception(msg) *)
  | AssertionError (msg : string)
  | ListIndexError                      (* list index out of range *)
  | ZeroDivisionError
  | ReshapeError.                       (* numpy: cannot reshape array *)

Inductive outcome (A : Type) : Type :=
  | Ok (a : A)
  | Throws (e : exn).

Arguments Ok {A} a.
Arguments Throws {A} e.

#[global] Instance outcome_ret : MRet outcome := fun _ a => Ok a.

#[global] Instance outcome_bind : MBind outcome := fun _ _ f m =>
  match m with
  | Ok a => f a
  | Throws e => Throws e
  end.

(** A list comprehension whose element expression may raise. *)
Fixpoint traverse {A B : Type} (f : A -> outcome B) (l : list A) : outcome (list B) :=
  match l with
  | [] => Ok []
  | a :: l' => b ← f a; bs ← traverse f l'; Ok (b :: bs)
  end.

(** [obj.name] on an attribute that may not have been set yet. *)
Definition attr {A : Type} (name : string) (value : option A) : outcome A :=
  match value with
  | Some v => Ok v
  | None => Throws (AttributeError name)
  end.

(** [d[key]] on a dict with string keys. *)
Definition getitem {V : Type} (d : gmap string V) (key : string) : outcome V :=
  match d !! key with
  | Some v => Ok v
  | None => Throws (KeyError key)
  end.

(** ** [text_encoder] *)

(** What [text_encoder] uses of a [CharBPETokenizer]. *)
Record CharBPETokenizer : Type := {
  bpe_get_vocab_size : nat;
  bpe_id_to_token : nat -> string;
  bpe_encode_ids : string -> list nat
}.

Inductive encode_method : Type :=
  | Encode_chars
  | Encode_subwords.

(** The attributes of a [text_encoder]; [None] is an attribute not set. *)
Record text_encoder : Type := {
  te_unit : string;
  te_special_tokens : list string;
  te_char2id : option (gmap string nat);
  te_id2char : option (gmap nat string);
  te_encode : option encode_method;
  te_id_to_token : option (gmap nat string + gmap string nat);
  te_token_to_id : option (gmap string nat);
  te_subword_tokenizer : option CharBPETokenizer
}.

Definition get_vocab_size (self : text_encoder) : outcome nat :=
  if decide (te_unit self = "char")
  then id2char ← attr "id2char" (te_id2char self); Ok (size id2char)
  else tokenizer ← attr "subword_tokenizer" (te_subword_tokenizer self);
       Ok (bpe_get_vocab_size tokenizer).

Definition _id_to_subword (self : text_encoder) : outcome (gmap string nat) :=
  n ← get_vocab_size self;
  foldl (fun acc i =>
           id2subword ← acc;
           tokenizer ← attr "subword_tokenizer" (te_subword_tokenizer self);
           Ok (<[bpe_id_to_token tokenizer i := i]> id2subword))
        (Ok ∅) (seq 0 n).

Definition text_encoder_init (unit : string) (special_tokens : list string)
    : outcome text_encoder :=
  if decide (unit = "char") then
    let '(char2id, id2char) := lookup_dicts special_tokens in
    Ok {| te_unit := unit; te_special_tokens := special_tokens;
          te_char2id := Some char2id; te_id2char := Some id2char;
          te_encode := Some Encode_chars;
          te_id_to_token := Some (inl id2char);
          te_token_to_id := Some char2id;
          te_subword_tokenizer := None |}
  else if decide (unit = "subword") then
    let self :=
      {| te_unit := unit; te_special_tokens := special_tokens;
         te_char2id := None; te_id2char := None;
         te_encode := Some Encode_subwords;
         te_id_to_token := None; te_token_to_id := None;
         te_subword_tokenizer := None |} in
    id2subword ← _id_to_subword self;
    Ok {| te_unit := unit; te_special_tokens := special_tokens;
          te_char2id := None; te_id2char := None;
          te_encode := Some Encode_subwords;
          te_id_to_token := Some (inr id2subword); te_token_to_id := None;
          te_subword_tokenizer := None |}
  else Throws (PlainException "Unit not support!").

Definition _encode_chars (self : text_encoder) (sentence : string) (with_eos : bool)
    : outcome (list nat) :=
  tokens ← traverse
    (fun char =>
       char2id ← attr "char2id" (te_char2id self);
       if decide (char ≠ " ") then getitem char2id char else getitem char2id "<SPACE>")
    (chars sentence);
  if with_eos
  then char2id ← attr "char2id" (te_char2id self);
       eos ← getitem char2id "<EOS>";
       Ok (tokens ++ [eos])
  else Ok tokens.

Definition _encode_subwords (self : text_encoder) (sentence : string) (with_eos : bool)
    : outcome (list nat) :=
  tokenizer ← attr "subword_tokenizer" (te_subword_tokenizer self);
  let tokens := bpe_encode_ids tokenizer sentence in
  if with_eos
  then tokenizer ← attr "subword_tokenizer" (te_subword_tokenizer self);
       Ok (tokens ++ bpe_encode_ids tokenizer "<EOS>")
  else Ok tokens.

(** [self.encode(sentence, with_eos)]. *)
Definition text_encoder_encode (self : text_encoder) (sentence : string) (with_eos : bool)
    : outcome (list nat) :=
  method ← attr "encode" (te_encode self);
  match method with
  | Encode_chars => _encode_chars self sentence with_eos
  | Encode_subwords => _encode_subwords self sentence with_eos
  end.

(** The tokens [lookup_dicts] enumerates. *)
Definition all_tokens (special_tokens : list string) : list string :=
  special_tokens ++ take 26 (chars ascii_uppercase).

(** What reading the ids back through [id2char] gives for a sentence. *)
Definition spelled (sentence : string) (with_eos : bool) : list string :=
  map (fun char => if decide (char ≠ " ") then char else "<SPACE>") (chars sentence)
  ++ (if with_eos then ["<EOS>"] else []).

(** One step of the loop of [lookup_dicts]. *)
Definition dict_step : gmap string nat * gmap nat string -> nat * string
    -> gmap string nat * gmap nat string :=
  fun '(token_to_id, id_to_token) '(i, c) =>
    (<[c := i]> token_to_id, <[i := c]> id_to_token).


(** The element expression of the comprehension of [_encode_chars]. *)
Definition encode_char (char2id : gmap string nat) (char : string) : outcome nat :=
  if decide (char ≠ " ") then getitem char2id char else getitem char2id "<SPACE>".

(** A character the dictionaries of [special_tokens] can encode. *)
Definition encodable (char : string) : Prop :=
  char = " " \/ char ∈ take 26 (chars ascii_uppercase).

(** ** Preparing the texts *)

(** [string.punctuation]. *)
Definition punctuation : string :=
  "!" +:+ String (Ascii.ascii_of_nat 34) "#$%&'()*+,-./:;<=>?@[\]^_`{|}~".

(** [s.translate(str.maketrans('', '', deleted))]: [s] without the
    characters of [deleted]. *)
Fixpoint translate_delete (deleted s : string) : string :=
  match s with
  | EmptyString => EmptyString
  | String a s' =>
      if bool_decide (String a EmptyString ∈ chars deleted)
      then translate_delete deleted s'
      else String a (translate_delete deleted s')
  end.

(** [numpy.ndarray.astype(np.int32)] on an integer. *)
Definition astype_int32 (n : Z) : Z := (n + 2 ^ 31) mod 2 ^ 32 - 2 ^ 31.

(** [process_texts(texts, tokenizer)]: [(tokens, tokenlen)]. *)
Fixpoint process_texts_loop (tokenizer : text_encoder) (texts : list string)
    (tokens : list (list nat)) (tokenlen : list nat)
    : outcome (list (list nat) * list nat) :=
  match texts with
  | [] => Ok (tokens, tokenlen)
  | sentence :: texts' =>
      let sentence := translate_delete punctuation sentence in
      sentence_converted ← text_encoder_encode tokenizer sentence true;
      let tokens := tokens ++ [sentence_converted] in
      tokenlen' ← match last tokens with
                  | Some t => Ok (tokenlen ++ [length t])
                  | None => Throws ListIndexError
                  end;
      process_texts_loop tokenizer texts' tokens tokenlen'
  end.

Definition process_texts (texts : list string) (tokenizer : text_encoder)
    : outcome (list (list nat) * list Z) :=
  '(tokens, tokenlen) ← process_texts_loop tokenizer texts [] [];
  Ok (tokens, map (fun n => astype_int32 (Z.of_nat n)) tokenlen).

(** What [process_texts] keeps of a sentence. *)
Definition kept_chars (sentence : string) : list string :=
  List.filter (fun c => negb (bool_decide (c ∈ chars punctuation))) (chars sentence).

(** ** Extracting features *)

Definition _SAMPLE_THRESHOLD : Z := 50000.

(** The arguments [preprocess.py] reads for the features. *)
Record FeatArgs : Type := {
  frame_step : Q;
  frame_length : Q;
  feat_dim : Z;
  feat_type : string;
  cmvn : bool;
  feat_dir : string
}.

(** [librosa] and [speechpy], and the files [librosa.load] reads. *)
Class AudioLib : Type := {
  Audio : Type;
  (* librosa.load(p, sr=None): (audio, fs) *)
  librosa_load : string -> outcome (Audio * Q);
  (* speechpy.feature.mfcc(audio, fs, frame_length, frame_stride, num_cepstral) *)
  speechpy_mfcc : Audio -> Q -> Q -> Q -> Z -> matrix;
  (* speechpy.feature.lmfe(audio, fs, frame_length, frame_stride, num_filters) *)
  speechpy_lmfe : Audio -> Q -> Q -> Q -> Z -> matrix;
  (* speechpy.processing.cmvn(x, True) *)
  speechpy_cmvn : matrix -> matrix;
  (* speechpy.feature.extract_derivative_feature(x), one list of values per frame *)
  extract_derivative_feature : matrix -> matrix
}.

(** [l[a:b]] for [0 <= a <= b]. *)
Definition slice {A : Type} (l : list A) (a b : nat) : list A := take (b - a) (drop a l).

(** [x.reshape(-1, d)] on the values of [x] in row-major order. *)
Definition reshape_rows (x : matrix) (d : Z) : outcome matrix :=
  let flat := concat x in
  if d <=? 0 then Throws ReshapeError
  else if negb (Z.of_nat (length flat) mod d =? 0) then Throws ReshapeError
  else Ok (map (fun i => slice flat (i * Z.to_nat d) ((i + 1) * Z.to_nat d))
               (seq 0 (length flat / Z.to_nat d))).

Section Features.

Context {L : AudioLib}.

(** The body of the loop of [process_audios] up to the append to
    [feats]. *)
Definition append_features (args : FeatArgs) (p : string) (feats : list matrix)
    : outcome (list matrix) :=
  '(audio, fs) ← librosa_load p;
  if decide (feat_type args = "mfcc") then
    if decide (feat_dim args = 39) then
      let mfcc := speechpy_mfcc audio fs (frame_length args / 1000)%Q
                    (frame_step args / 1000)%Q 13 in
      let mfcc := if cmvn args then speechpy_cmvn mfcc else mfcc in
      let mfcc_39 := extract_derivative_feature mfcc in
      feat ← reshape_rows mfcc_39 (feat_dim args);
      Ok (feats ++ [feat])
    else Throws (AssertionError "13+delta+accelerate")
  else if decide (feat_type args = "fbank") then
    let fbank := speechpy_lmfe audio fs (frame_length args / 1000)%Q
                   (frame_step args / 1000)%Q (feat_dim args) in
    let fbank := if cmvn args then speechpy_cmvn fbank else fbank in
    feat ← reshape_rows fbank (feat_dim args);
    Ok (feats ++ [feat])
  else Ok feats.

Fixpoint process_audios_loop (args : FeatArgs) (audio_path : list string)
    (feats : list matrix) (featlen : list nat) : outcome (list matrix * list nat) :=
  match audio_path with
  | [] => Ok (feats, featlen)
  | p :: audio_path' =>
      feats ← append_features args p feats;
      featlen ← match last feats with
                | Some feat => Ok (featlen ++ [length feat])
                | None => Throws ListIndexError
                end;
      process_audios_loop args audio_path' feats featlen
  end.

Definition process_audios (audio_path : list string) (args : FeatArgs)
    : outcome (list matrix * list nat) :=
  process_audios_loop args audio_path [] [].

(** What the disk receives. *)
Inductive event : Type :=
  | Dump (file : string) (feats : list matrix)     (* joblib.dump *)
  | Save (file : string) (values : list nat).      (* np.save *)

(** [save_ted_feats(feats, cat, k)] of [main_ted]. *)
Definition save_ted_feats (args : FeatArgs) (feats : list matrix) (cat : string) (k : nat)
    : outcome (list event) :=
  if Z.of_nat (length feats) >? _SAMPLE_THRESHOLD then
    match k with
    | O => Throws ZeroDivisionError
    | _ =>
        let n := (length feats / k + 1)%nat in
        Ok (map (fun i =>
                   Dump (feat_dir args +:+ "/" +:+ cat +:+ "_feats_" +:+ pretty i +:+ ".pkl")
                        (slice feats (i * n) ((i + 1) * n)))
                (seq 0 k))
    end
  else Ok [Dump (feat_dir args +:+ "/" +:+ cat +:+ "_feats.pkl") feats].

(** The loop of [process_libri_feats] over the parts: the events so far,
    the lengths so far, and how the loop ended. *)
Fixpoint process_libri_parts (args : FeatArgs) (audio_path : list string) (cat : string)
    (n : nat) (parts : list nat) (events : list event) (featlen : list nat)
    : list event * outcome (list nat) :=
  match parts with
  | [] => (events, Ok featlen)
  | i :: parts' =>
      match process_audios (slice audio_path (i * n) ((i + 1) * n)) args with
      | Throws e => (events, Throws e)
      | Ok (feats, featlen_) =>
          process_libri_parts args audio_path cat n parts'
            (events ++ [Dump (feat_dir args +:+ "/" +:+ cat +:+ "_feats_" +:+ pretty i
                              +:+ ".pkl") feats])
            (featlen ++ featlen_)
      end
  end.

(** [process_libri_feats(audio_path, cat, k)] of [main_libri]: the events
    on the disk and how the call ended. *)
Definition process_libri_feats (args : FeatArgs) (audio_path : list string) (cat : string)
    (k : nat) : list event * outcome () :=
  let '(events, featlen) :=
    if Z.of_nat (length audio_path) >? _SAMPLE_THRESHOLD then
      match k with
      | O => ([], Throws ZeroDivisionError)
      | _ =>
          let n := (length audio_path / k + 1)%nat in
          process_libri_parts args audio_path cat n (seq 0 k) [] []
      end
    else
      match process_audios audio_path args with
      | Throws e => ([], Throws e)
      | Ok (feats, featlen) =>
          ([Dump (feat_dir args +:+ "/" +:+ cat +:+ "_feats.pkl") feats], Ok featlen)
      end in
  match featlen with
  | Throws e => (events, Throws e)
  | Ok featlen =>
      (events ++ [Save (feat_dir args +:+ "/" +:+ cat +:+ "_featlen.npy") featlen], Ok ())
  end.

End Features.

(** The feature lists an event list dumps, in order. *)
Definition dumped (events : list event) : list (list matrix) :=
  omap (fun e => match e with Dump _ feats => Some feats | Save _ _ => None end) events.

Definition event_file (e : event) : string :=
  match e with Dump file _ => file | Save file _ => file end.

(** What one pass of the loop of [process_audios] adds to [feats] when it
    starts from none. *)
Definition extract_features {L : AudioLib} (args : FeatArgs) (p : string) : outcome matrix :=
  feats ← append_features args p [];
  match last feats with
  | Some feat => Ok feat
  | None => Throws ListIndexError
  end.

(** The two feature types [process_audios] knows. *)
Definition supported (args : FeatArgs) : Prop :=
  feat_type args = "mfcc" \/ feat_type args = "fbank".

(** ** Reading the LibriSpeech transcripts *)

(** The directory tree that [glob] and [open] see. *)
Class FileSystem : Type := {
  glob : string -> list string;
  readlines : string -> list string
}.

(** [s.split(" ")[0]]: [s] up to its first space. *)
Fixpoint first_field (s : string) : string :=
  match s with
  | EmptyString => EmptyString
  | String a s' =>
      if decide (String a EmptyString = " ") then EmptyString
      else String a (first_field s')
  end.

Fixpoint string_drop (n : nat) (s : string) : string :=
  match n, s with
  | O, _ => s
  | S n', String _ s' => string_drop n' s'
  | S _, EmptyString => EmptyString
  end.

Fixpoint string_take (n : nat) (s : string) : string :=
  match n, s with
  | S n', String a s' => String a (string_take n' s')
  | _, _ => EmptyString
  end.

(** [s[a:-1]] for [a >= 0]. *)
Definition slice_to_last (s : string) (a : nat) : string :=
  string_take (String.length s - 1 - a) (string_drop a s).

Definition newline : string := String (Ascii.ascii_of_nat 10) EmptyString.

(** What the loop over the lines of a transcript file appends to
    [audio_path] and to [texts]; [replace("'", "")] deletes every
    apostrophe. *)
Definition parse_line (path line : string) : string * string :=
  let line_0 := first_field line in
  (path +:+ "/" +:+ line_0 +:+ ".flac",
   translate_delete "'" (slice_to_last line (String.length line_0 + 1))).

Section Transcripts.

Context {F : FileSystem}.

Fixpoint data_preparation_loop (folders : list string) (texts audio_path : list string)
    : outcome (list string * list string) :=
  match folders with
  | [] => Ok (texts, audio_path)
  | path :: folders' =>
      text_path ← match glob (path +:+ "/*txt") with
                  | text_path :: _ => Ok text_path
                  | [] => Throws ListIndexError
                  end;
      let parsed := map (parse_line path) (readlines text_path) in
      data_preparation_loop folders' (texts ++ map snd parsed) (audio_path ++ map fst parsed)
  end.

Definition data_preparation (libri_path : string) : outcome (list string * list string) :=
  let folders := glob (libri_path +:+ "/**/**") in
  data_preparation_loop folders [] [].

End Transcripts.

(** The characters of a LibriSpeech transcript: capitals, spaces and
    punctuation. *)
Definition transcript_char (c : string) : Prop :=
  encodable c \/ c ∈ chars punctuation.

(** Two batches of logits agree wherever the token is not PAD. *)
Definition agree_off_padding (logits logits' : list matrix) (y : list ids) : Prop :=
  Forall3 (fun slice slice' tokens =>
             Forall3 (fun row row' token => token ≠ 0 -> row = row') slice slice' tokens)
          logits logits' y.

(** ** Sample libraries and files

    Used to run the text and feature code on explicit inputs. *)

Module Samples.

(** The encoder [text_encoder("char", special_tokens)] builds. *)
Definition char_encoder : text_encoder :=
  {| te_unit := "char"; te_special_tokens := special_tokens;
     te_char2id := Some (lookup_dicts special_tokens).1;
     te_id2char := Some (lookup_dicts special_tokens).2;
     te_encode := Some Encode_chars;
     te_id_to_token := Some (inl (lookup_dicts special_tokens).2);
     te_token_to_id := Some (lookup_dicts special_tokens).1;
     te_subword_tokenizer := None |}.

(** Audio is a list of samples, one frame each; no file is called
    [missing.flac]. *)
#[export] Instance audio_lib : AudioLib := {|
  Audio := list Q;
  librosa_load := fun p =>
    if decide (p = "missing.flac") then Throws (PlainException "no such file")
    else Ok ([1; 2; 3]%Q, 16000%Q);
  speechpy_mfcc := fun audio fs frame_length frame_stride num_cepstral =>
    map (fun x => replicate (Z.to_nat num_cepstral) x) audio;
  speechpy_lmfe := fun audio fs frame_length frame_stride num_filters =>
    map (fun x => replicate (Z.to_nat num_filters) x) audio;
  speechpy_cmvn := fun x => x;
  extract_derivative_feature := fun x => map (fun row => row ++ row ++ row) x
|}.

Definition fbank_args : FeatArgs :=
  {| frame_step := 10; frame_length := 25; feat_dim := 4; feat_type := "fbank";
     cmvn := true; feat_dir := "feats" |}.

Definition other_args : FeatArgs :=
  {| frame_step := 10; frame_length := 25; feat_dim := 4; feat_type := "spectrogram";
     cmvn := true; feat_dir := "feats" |}.

(** One folder holding one transcript file of two lines. *)
#[export] Instance file_system : FileSystem := {|
  glob := fun pattern =>
    if decide (pattern = "libri/**/**") then ["libri/19/198"]
    else if decide (pattern = "libri/19/198/*txt") then ["libri/19/198/19-198.trans.txt"]
    else [];
  readlines := fun file =>
    if decide (file = "libri/19/198/19-198.trans.txt")
    then ["19-198-0000 NORTHANGER ABBEY" +:+ newline;
          "19-198-0001 CATHERINE'S MOTHER" +:+ newline]
    else []
|}.

(** A backend whose uniform draws lie in [[0, 1)]: the generator state
    counts the draws. *)
#[export] Instance counting_backend : Backend := {|
  Rng := nat;
  random_uniform := fun n => ((Z.of_nat (n mod 4) # 4)%Q, S n);
  categorical_sample := fun logits n => (Toy.middle_class logits, S n);
  dropout := fun x rate n => (x, S n);
  basic_rnn_cell := @basic_rnn_cell Toy.backend;
  dense_unit := @dense_unit Toy.backend;
  softmax_cross_entropy_with_logits := @softmax_cross_entropy_with_logits Toy.backend;
  softmax_cross_entropy_reshaped := @softmax_cross_entropy_reshaped Toy.backend;
  multiply_broadcast := @multiply_broadcast Toy.backend;
  attention := @attention Toy.backend;
  pblstm_plain := @pblstm_plain Toy.backend;
  pblstm_dropout := fun inputs audiolen num_layers units rate n =>
    ((inputs, [], audiolen), S n);
  embedding_value := @embedding_value Toy.backend;
  categorical_sample_in_range := fun logits n => Toy.middle_class_in_range logits
|}.

(** Sampling only: a teacher forcing rate of zero. *)
Definition args_sampling : Args :=
  {| num_enc_layers := 1; enc_units := 1; num_dec_layers := 2; dec_units := 2;
     dropout_rate := 0; embedding_size := 2; vocab_size := 6;
     teacher_forcing_rate := 0; convert_rate := 1 # 4; vocab := None |}.

End Samples.

(** * Properties *)

(** ** The outcome monad *)

Lemma while_loop_stop {St : Type} (cond : St -> bool) (body : St -> run St) s fuel :
  cond s = false -> while_loop cond body s fuel = Returns s.
Proof. intros H. destruct fuel; simpl; by rewrite H. Qed.


Lemma mapM_cons {A B : Type} (f : A -> run B) (a : A) (l : list A) :
  mapM f (a :: l) = b ← f a; k ← mapM f l; Returns (b :: k).
Proof. reflexivity. Qed.

Lemma mapM_Returns {A B : Type} (f : A -> run B) (l : list A) (k : list B) :
  Forall2 (fun a b => f a = Returns b) l k -> mapM f l = Returns k.
Proof.
  induction 1 as [|a b l k Hab _ IH]; [done|].
  rewrite mapM_cons, Hab. cbn [mbind run_bind]. by rewrite IH.
Qed.

(** ** Lookups in the embedding table *)

Lemma embedding_lookup_rows (table : matrix) (tokens : ids) (rows : matrix) :
  rows_of table tokens rows -> embedding_lookup table tokens = Returns rows.
Proof.
  intros H. apply mapM_Returns. eapply Forall2_impl; [exact H|].
  intros id row [Hid Hrow]. cbn beta.
  replace (id <? 0) with false by (symmetry; apply Z.ltb_ge; lia).
  by rewrite Hrow.
Qed.



(** ** The first maximum of a row *)




Section Properties.

Context {K : Backend}.

(** ** The shapes the code gives to the table and to the logits *)


Lemma embedding_variable_row (rows cols : Z) (i : nat) :
  (i < Z.to_nat rows)%nat ->
  embedding_variable rows cols !! i
  = Some (map (fun j => embedding_value i j) (seq 0 (Z.to_nat cols))).
Proof.
  intros Hi. unfold embedding_variable.
  set (row := fun i => map (fun j => embedding_value i j) (seq 0 (Z.to_nat cols))).
  change (map row (seq 0 (Z.to_nat rows))) with (row <$> seq 0 (Z.to_nat rows)).
  etrans; [apply list_lookup_fmap|]. by rewrite lookup_seq_lt.
Qed.


(** The start token is in a table of at least two rows. *)
Lemma look_up_start_token args char2id (batch : nat) :
  2 <= vocab_size args ->
  _look_up (Speller_init args char2id) (ones batch)
  = Returns (replicate batch
               (map (fun j => embedding_value 1 j) (seq 0 (Z.to_nat (embedding_size args))))).
Proof.
  intros HV. unfold _look_up, ones. cbn [embedding_matrix Speller_init].
  apply embedding_lookup_rows. unfold rows_of, _build_char_embeddings.
  apply Forall2_replicate. split; [lia|].
  apply embedding_variable_row. lia.
Qed.


(** ** The decoder state keeps the structure of its cell *)

Lemma zero_state_ok cell batch : state_ok cell (zero_state cell batch).
Proof. destruct cell; simpl; [done | by rewrite length_map]. Qed.

Lemma multi_rnn_call_returns cells :
  forall i cur_inp hs, length hs = length cells ->
    exists out new_states,
      multi_rnn_call i cells cur_inp hs = Returns (out, new_states)
      /\ length new_states = length cells.
Proof.
  induction cells as [|units cells IH]; intros i cur_inp hs Hlen.
  - exists cur_inp, []. by destruct hs.
  - destruct hs as [|h hs]; [discriminate|].
    simpl in Hlen. injection Hlen as Hlen.
    destruct (IH (S i) (basic_rnn_cell i units cur_inp h) hs Hlen)
      as (out & new_states & Hcall & Hnew).
    exists out, (basic_rnn_cell i units cur_inp h :: new_states).
    simpl. rewrite Hcall. simpl. by rewrite Hnew.
Qed.

Lemma cell_call_returns cell inputs state :
  state_ok cell state ->
  exists out state', cell_call cell inputs state = Returns (out, state')
                     /\ state_ok cell state'.
Proof.
  destruct cell as [units|cells], state as [h|hs]; simpl; try done.
  - intros _. by eexists _, _.
  - intros Hlen.
    destruct (multi_rnn_call_returns cells 0 inputs hs Hlen)
      as (out & new_states & Hcall & Hnew).
    exists out, (StTuple new_states). by rewrite Hcall.
Qed.

Lemma same_structure_zero_state args batch :
  same_structure (shape_state args) (zero_state (_build_decoder_cell args) batch) = true.
Proof.
  unfold shape_state, _build_decoder_cell.
  destruct (1 <? num_dec_layers args); simpl; [|done].
  rewrite length_map, length_replicate. apply Nat.eqb_refl.
Qed.








(** ** The loop entry *)

Lemma Speller_entry_returns args char2id enc_out :
  2 <= vocab_size args ->
  Speller_entry (Speller_init args char2id) enc_out
  = Returns (0, zero_state (_build_decoder_cell args) (length enc_out),
             replicate (length enc_out)
               (map (fun j => embedding_value 1 j) (seq 0 (Z.to_nat (embedding_size args)))),
             [zeros (length enc_out) (Z.to_nat (vocab_size args))]).
Proof.
  intros HV. unfold Speller_entry. by rewrite look_up_start_token.
Qed.

Lemma Speller_loop_entry args char2id enc_out enc_len dec_steps mode rng fuel :
  Speller_loop (Speller_init args char2id) enc_out enc_len dec_steps mode rng fuel
  = init ← Speller_entry (Speller_init args char2id) enc_out;
    while_loop (is_stop dec_steps)
      (iteration (Speller_init args char2id) enc_out enc_len mode) (init, rng) fuel.
Proof.
  unfold Speller_loop. cbn [Speller_args dec_cell Speller_init].
  by rewrite same_structure_zero_state.
Qed.

(** ** The length of the logits *)



(** Without steps the loop hands its entry state back. *)
Lemma Speller_loop_without_steps self enc_out enc_len dec_steps mode rng fuel :
  dec_steps <= 0 ->
  same_structure (shape_state (Speller_args self))
    (zero_state (dec_cell self) (length enc_out)) = true ->
  Speller_loop self enc_out enc_len dec_steps mode rng fuel
  = init ← Speller_entry self enc_out; Returns (init, rng).
Proof.
  intros Hsteps Hshape. unfold Speller_loop. rewrite Hshape.
  destruct (Speller_entry self enc_out) as [init| |] eqn:Hentry; try done.
  cbn [mbind run_bind]. apply while_loop_stop.
  unfold Speller_entry in Hentry.
  destruct (_look_up self _) as [c| |]; try discriminate.
  cbn [mbind run_bind] in Hentry. injection Hentry as <-.
  simpl. apply Z.ltb_ge. lia.
Qed.



(** ** [inference] as a composition *)

Lemma LAS_inference_of_init args listener speller char2id id2char audio audiolen rng fuel :
  LAS_inference (LAS_init args listener speller char2id id2char) (audio, audiolen) rng fuel
  = '(logits, rng') ←
      Speller_call (Speller_init args char2id)
        (Listener_call (Listener_init args) audio audiolen false rng).1.1.1
        (Listener_call (Listener_init args) audio audiolen false rng).1.2
        (decode_steps (convert_rate args) audiolen) Inference
        (Listener_call (Listener_init args) audio audiolen false rng).2 fuel;
    y_hat ← argmax_logits (vocab_size args) logits;
    Returns (logits, y_hat, rng').
Proof.
  unfold LAS_inference, LAS_init, decode_steps, tf_multiply_scalar.
  cbn [LAS_args LAS_listener LAS_speller].
  destruct (negb (truthy (vocab_size args)));
    by destruct (Listener_call _ audio audiolen false rng) as [[[h enc_state] enc_len] rng1].
Qed.

(** C9 (as amended).  With a vocabulary of at least two tokens, so that the
    start token is a row of the embedding table, and [dec_steps <= 0], the
    loop leaves its entry state untouched and [__call__] returns the empty
    logits, in either mode and with any fuel; [inference] gets there
    whenever the float32 product of [convert_rate] and the largest input
    length casts to an integer that is not positive, and then returns empty
    logits and empty token ids. *)
Theorem Speller_total_without_steps args listener speller char2id id2char
    enc_out enc_len dec_steps mode rng fuel :
  2 <= vocab_size args ->
  dec_steps <= 0 ->
  Speller_loop (Speller_init args char2id) enc_out enc_len dec_steps mode rng fuel
    = Returns ((0, zero_state (_build_decoder_cell args) (length enc_out),
                replicate (length enc_out)
                  (map (fun j => embedding_value 1 j)
                     (seq 0 (Z.to_nat (embedding_size args)))),
                [zeros (length enc_out) (Z.to_nat (vocab_size args))]), rng)
  /\ Speller_call (Speller_init args char2id) enc_out enc_len dec_steps mode rng fuel
      = Returns ([], rng)
  /\ forall audio audiolen,
       decode_steps (convert_rate args) audiolen = dec_steps ->
       LAS_inference (LAS_init args listener speller char2id id2char) (audio, audiolen) rng fuel
         = Returns ([], [], rng).
Proof.
  intros HV Hsteps.
  assert (Hloop : forall eo el m r,
            Speller_loop (Speller_init args char2id) eo el dec_steps m r fuel
            = Returns ((0, zero_state (_build_decoder_cell args) (length eo),
                        replicate (length eo)
                          (map (fun j => embedding_value 1 j)
                             (seq 0 (Z.to_nat (embedding_size args)))),
                        [zeros (length eo) (Z.to_nat (vocab_size args))]), r)).
  { intros eo el m r. rewrite Speller_loop_without_steps; [|done|].
    - by rewrite Speller_entry_returns.
    - cbn [Speller_args dec_cell Speller_init]. apply same_structure_zero_state. }
  assert (Hcall : forall eo el m r,
            Speller_call (Speller_init args char2id) eo el dec_steps m r fuel = Returns ([], r)).
  { intros eo el m r. unfold Speller_call. by rewrite Hloop. }
  split; [apply Hloop|]. split; [apply Hcall|].
  intros audio audiolen Hcast.
  rewrite LAS_inference_of_init, Hcast, Hcall. cbn [mbind run_bind].
  unfold argmax_logits.
  replace (vocab_size args <=? 0) with false by (symmetry; apply Z.leb_gt; lia).
  unfold Listener_call, pblstm. reflexivity.
Qed.

(** ** The summary of the decoder state *)

(** C2 (as amended).  At every decode step the summary handed to attention
    comes from [_get_hidden_state], which for any positive layer count
    takes [tf.concat(dec_state, -1)]: the concatenation of all per-layer
    states of a multi-layer decoder, and the state tensor itself, whole,
    for a single-layer one.  [dec_state[1]] is taken only for a layer count
    that is not positive. *)
Theorem hidden_state_summary args char2id state enc_out enc_len prev_char training :
  state_ok (_build_decoder_cell args) state ->
  (1 < num_dec_layers args ->
     exists hs, state = StTuple hs
                /\ length hs = Z.to_nat (num_dec_layers args)
                /\ _get_hidden_state (Speller_init args char2id) state
                    = Returns (Rank2 (concat_last hs)))
  /\ (num_dec_layers args = 1 ->
        exists h, state = StTensor h
                  /\ _get_hidden_state (Speller_init args char2id) state = Returns (Rank2 h))
  /\ (num_dec_layers args <= 0 ->
        _get_hidden_state (Speller_init args char2id) state = getitem_1 state)
  /\ decode (Speller_init args char2id) enc_out enc_len state prev_char training
      = s_i ← _get_hidden_state (Speller_init args char2id) state;
        attended_step (Speller_init args char2id) state prev_char
          (attention enc_out s_i (enc_units args * 2)
             (dec_units args * num_dec_layers args) enc_len).
Proof.
  intros Hok. unfold _get_hidden_state.
  cbn [Speller_args Speller_init].
  unfold _build_decoder_cell in Hok.
  repeat split.
  - intros HL.
    replace (1 <? num_dec_layers args) with true in Hok by (symmetry; apply Z.ltb_lt; lia).
    replace (0 <? num_dec_layers args) with true by (symmetry; apply Z.ltb_lt; lia).
    destruct state as [h|hs]; [done|]. simpl in Hok. rewrite length_replicate in Hok.
    exists hs. split; [done|]. split; [done|].
    destruct hs as [|h hs]; [simpl in Hok; lia|done].
  - intros HL. rewrite HL in *. simpl in Hok.
    destruct state as [h|hs]; [|done]. by exists h.
  - intros HL.
    by replace (0 <? num_dec_layers args) with false by (symmetry; apply Z.ltb_ge; lia).
  - unfold decode, attended_step, _get_hidden_state.
    cbn [Speller_args Speller_init hidden_size].
    destruct (if 0 <? num_dec_layers args then _ else _) as [s_i| |]; [|done..].
    cbn [mbind run_bind]. by destruct (attention _ _ _ _ _).
Qed.

(** ** The state at loop entry *)




(** ** The constructor of [LAS] leaves [vocab_size] alone *)

(** C10.  After [LAS.__init__] the object [args] has the [vocab_size] it
    had before; a falsy [vocab_size] sends [len(char2id)] to the attribute
    [vocab] and changes nothing else; the speller is built with the old
    [vocab_size], and no operation of the listener, the speller or the
    loss depends on what [vocab] holds. *)
Theorem LAS_init_keeps_vocab_size args listener speller char2id id2char :
  vocab_size (LAS_args (LAS_init args listener speller char2id id2char)) = vocab_size args
  /\ LAS_args (LAS_init args listener speller char2id id2char)
      = (if truthy (vocab_size args) then args
         else set_vocab (Z.of_nat (size char2id)) args)
  /\ vocab_size (Speller_args (LAS_speller (LAS_init args listener speller char2id id2char)))
      = vocab_size args
  /\ embedding_matrix (LAS_speller (LAS_init args listener speller char2id id2char))
      = embedding_variable (vocab_size args) (embedding_size args)
  /\ forall v,
       (forall inputs audiolen training rng,
          Listener_call (Listener_init (set_vocab v args)) inputs audiolen training rng
          = Listener_call (Listener_init args) inputs audiolen training rng)
       /\ (forall enc_out enc_len dec_steps mode rng fuel,
            Speller_call (Speller_init (set_vocab v args) char2id)
              enc_out enc_len dec_steps mode rng fuel
            = Speller_call (Speller_init args char2id) enc_out enc_len dec_steps mode rng fuel)
       /\ (forall las logits y charlen,
            LAS_args las = set_vocab v args ->
            _get_loss las logits y charlen
            = tf_softmax_cross_entropy logits (tf_one_hot y (vocab_size args))
                ≫= fun cross_entropy =>
              tf_multiply cross_entropy (mask_of y) ≫= fun weighted =>
              tf_divide (reduce_sum weighted) (reduce_sum (mask_of y) + eps)%Q).
Proof.
  unfold LAS_init. cbn [LAS_args LAS_speller].
  destruct (truthy (vocab_size args)); cbn [negb];
    (repeat split; try reflexivity; intros las logits y charlen Hargs;
     unfold _get_loss; by rewrite Hargs).
Qed.

(** ** Inference draws nothing from the generator *)

(** The generator state a greedy run would hand back, put on an outcome. *)
Lemma iteration_inference_rng self enc_out enc_len vars rng rng0 :
  iteration self enc_out enc_len Inference (vars, rng)
  = (fun s => (s.1, rng)) <$> iteration self enc_out enc_len Inference (vars, rng0).
Proof.
  destruct vars as [[[t state] prev_char] output]. unfold iteration.
  cbn [is_training].
  destruct (decode self enc_out enc_len state prev_char false) as [[[c st] al]| |]; try done.
  cbn [mbind run_bind].
  destruct (argmax _ c) as [greedy| |]; try done. cbn [mbind run_bind].
  by destruct (_look_up self greedy) as [embedded| |].
Qed.

Lemma while_loop_inference_rng self enc_out enc_len dec_steps fuel :
  forall vars rng rng0,
    while_loop (is_stop dec_steps) (iteration self enc_out enc_len Inference) (vars, rng) fuel
    = (fun s => (s.1, rng))
        <$> while_loop (is_stop dec_steps) (iteration self enc_out enc_len Inference)
              (vars, rng0) fuel.
Proof.
  induction fuel as [|fuel IH]; intros vars rng rng0;
    assert (Hcond : is_stop dec_steps (vars, rng) = is_stop dec_steps (vars, rng0))
      by (by destruct vars as [[[t state] prev_char] output]);
    cbn [while_loop]; rewrite Hcond; destruct (is_stop dec_steps (vars, rng0)); try done.
  rewrite (iteration_inference_rng self enc_out enc_len vars rng rng0).
  destruct (iteration self enc_out enc_len Inference (vars, rng0)) as [[vars' rng']| |];
    try done.
  apply IH.
Qed.

Lemma Speller_call_inference_rng self enc_out enc_len dec_steps fuel rng rng0 :
  Speller_call self enc_out enc_len dec_steps Inference rng fuel
  = (fun out => (out.1, rng))
      <$> Speller_call self enc_out enc_len dec_steps Inference rng0 fuel.
Proof.
  unfold Speller_call, Speller_loop.
  destruct (same_structure _ _); [|done].
  destruct (Speller_entry self enc_out) as [init| |]; try done. cbn [mbind run_bind].
  rewrite (while_loop_inference_rng self enc_out enc_len dec_steps fuel _ rng rng0).
  by destruct (while_loop _ _ _ _) as [[[[[t state] prev_char] output] rng']| |].
Qed.

Lemma LAS_inference_rng self xs fuel rng rng0 :
  LAS_inference self xs rng fuel
  = (fun out => (out.1, rng)) <$> LAS_inference self xs rng0 fuel.
Proof.
  destruct xs as [audio audiolen]. unfold LAS_inference, Listener_call, pblstm.
  destruct (pblstm_plain _ _ _ _) as [[h enc_state] enc_len].
  rewrite (Speller_call_inference_rng _ h enc_len _ fuel rng rng0).
  destruct (Speller_call _ _ _ _ _ _ _) as [[logits rng']| |]; try done.
  cbn [fmap run_fmap mbind run_bind fst].
  by destruct (argmax_logits _ logits) as [y_hat| |].
Qed.

(** C3.  Inference is a function of the model and its input alone: two
    runs, whatever the state of the random generator, end alike with the
    same logits and the same argmax token ids, and hand the generator back
    untouched.  Each greedy step feeds the embedding of the argmax of its
    own logits to the next one, and the listener runs without dropout. *)
Theorem inference_deterministic self xs fuel rng1 rng2 :
  fst <$> LAS_inference self xs rng1 fuel = fst <$> LAS_inference self xs rng2 fuel
  /\ LAS_inference self xs rng1 fuel
     = (fun out => (out.1, rng1)) <$> LAS_inference self xs rng2 fuel
  /\ (forall speller enc_out enc_len t state prev_char output,
        iteration speller enc_out enc_len Inference ((t, state, prev_char, output), rng1)
        = '(cur_char, state', alphas) ←
            decode speller enc_out enc_len state prev_char false;
          greedy ← argmax (vocab_size (Speller_args speller)) cur_char;
          embedded ← embedding_lookup (embedding_matrix speller) greedy;
          Returns ((t + 1, state', embedded, output ++ [cur_char]), rng1))
  /\ (forall listener inputs audiolen,
        Listener_call listener inputs audiolen false rng1
        = (pblstm_plain inputs audiolen (num_enc_layers (Listener_args listener))
             (enc_units (Listener_args listener)), rng1)).
Proof.
  split; [|split; [apply LAS_inference_rng|split]].
  - rewrite (LAS_inference_rng self xs fuel rng1 rng2).
    by destruct (LAS_inference self xs rng2 fuel) as [[out r]| |].
  - intros speller enc_out enc_len t state prev_char output. unfold iteration, _look_up.
    cbn [is_training].
    destruct (decode speller enc_out enc_len state prev_char false) as [[[c st] al]| |];
      try done.
    cbn [mbind run_bind].
    destruct (argmax _ c) as [greedy| |]; try done. cbn [mbind run_bind].
    by destruct (embedding_lookup _ greedy) as [embedded| |].
  - reflexivity.
Qed.

(** ** What a returned loop has done *)

Lemma while_loop_invariant {St : Type} (cond : St -> bool) (body : St -> run St)
    (Inv : St -> Prop) :
  (forall s s', Inv s -> cond s = true -> body s = Returns s' -> Inv s') ->
  forall fuel s s', Inv s -> while_loop cond body s fuel = Returns s' ->
                    Inv s' /\ cond s' = false.
Proof.
  intros Hstep. induction fuel as [|fuel IH]; intros s s' HI H; simpl in H.
  - destruct (cond s) eqn:Hc; [done|]. by injection H as <-.
  - destruct (cond s) eqn:Hc; [|by injection H as <-].
    destruct (body s) as [s1| |] eqn:Hb; try done. simpl in H.
    eapply IH; [|exact H]. by eapply Hstep.
Qed.

Lemma cell_call_state_ok cell inputs state out state' :
  state_ok cell state -> cell_call cell inputs state = Returns (out, state') ->
  state_ok cell state'.
Proof.
  intros Hok H. destruct (cell_call_returns cell inputs state Hok) as (o & s & Hc & Hs).
  rewrite Hc in H. by injection H as _ <-.
Qed.

Lemma state_ok_same_structure args state :
  state_ok (_build_decoder_cell args) state ->
  same_structure (shape_state args) state = true.
Proof.
  unfold _build_decoder_cell, shape_state.
  destruct (1 <? num_dec_layers args); destruct state as [h|hs]; simpl; try done.
  rewrite length_replicate. intros ->. apply Nat.eqb_refl.
Qed.

Lemma iteration_Returns self enc_out enc_len mode t state prev_char output rng s' :
  iteration self enc_out enc_len mode ((t, state, prev_char, output), rng) = Returns s' ->
  exists cur_char state' alphas prev_char' rng',
    decode self enc_out enc_len state prev_char (is_training mode)
      = Returns (cur_char, state', alphas)
    /\ s' = ((t + 1, state', prev_char', output ++ [cur_char]), rng').
Proof.
  unfold iteration.
  destruct (decode _ _ _ _ _ _) as [[[cur_char state'] alphas]| |]; try done.
  cbn [mbind run_bind].
  destruct mode as [teacher|].
  - destruct (next_input_training _ _ _ _ _) as [[p r]| |]; try done. cbn [mbind run_bind].
    intros H. injection H as <-. by eexists _, _, _, _, _.
  - destruct (argmax _ cur_char) as [greedy| |]; try done. cbn [mbind run_bind].
    destruct (_look_up self greedy) as [embedded| |]; try done. cbn [mbind run_bind].
    intros H. injection H as <-. by eexists _, _, _, _, _.
Qed.

Lemma decode_state_ok self enc_out enc_len state prev_char training cur_char state' alphas :
  state_ok (dec_cell self) state ->
  decode self enc_out enc_len state prev_char training = Returns (cur_char, state', alphas) ->
  state_ok (dec_cell self) state'.
Proof.
  intros Hok. unfold decode.
  destruct (_get_hidden_state self state) as [s_i| |]; try done.
  cbn -[concat_last cell_call dense].
  destruct (attention _ _ _ _ _) as [context al].
  destruct (cell_call _ _ _) as [[out st]| |] eqn:Hc; try done. cbn -[dense].
  intros H. injection H as _ <- _. by eapply cell_call_state_ok.
Qed.

Lemma Speller_entry_Returns self enc_out init :
  Speller_entry self enc_out = Returns init ->
  exists init_char,
    init = (0, zero_state (dec_cell self) (length enc_out), init_char,
            [zeros (length enc_out) (Z.to_nat (vocab_size (Speller_args self)))]).
Proof.
  unfold Speller_entry. destruct (_look_up self _) as [c| |]; try done.
  cbn [mbind run_bind]. intros H. injection H as <-. by exists c.
Qed.

Lemma Speller_loop_Returns args char2id enc_out enc_len dec_steps mode rng fuel
    t state prev_char output rng' :
  Speller_loop (Speller_init args char2id) enc_out enc_len dec_steps mode rng fuel
    = Returns ((t, state, prev_char, output), rng') ->
  t = Z.max 0 dec_steps
  /\ state_ok (_build_decoder_cell args) state
  /\ length output = S (Z.to_nat dec_steps).
Proof.
  rewrite Speller_loop_entry.
  destruct (Speller_entry _ enc_out) as [init| |] eqn:Hentry; try done.
  apply Speller_entry_Returns in Hentry as [init_char ->].
  cbn [mbind run_bind dec_cell Speller_args Speller_init]. intros H.
  apply (while_loop_invariant _ _
           (fun s => let '((t, state, _, output), _) := s in
                     0 <= t <= Z.max 0 dec_steps
                     /\ state_ok (_build_decoder_cell args) state
                     /\ length output = S (Z.to_nat t))) in H.
  - destruct H as [(Ht & Hok & Hlen) Hstop]. simpl in Hstop.
    apply Z.ltb_ge in Hstop.
    assert (t = Z.max 0 dec_steps) as -> by lia.
    split; [done|]. split; [done|].
    rewrite Hlen. f_equal. lia.
  - intros [[[[t0 st0] pc0] out0] r0] s' (Ht & Hok & Hlen) Hcond Hbody.
    simpl in Hcond. apply Z.ltb_lt in Hcond.
    apply iteration_Returns in Hbody as (c & st' & al & p & r & Hdec & ->).
    split; [lia|]. split.
    + by apply (decode_state_ok (Speller_init args char2id)) in Hdec.
    + rewrite length_app, Hlen. simpl. lia.
  - split; [lia|]. split; [apply zero_state_ok|done].
Qed.




(** ** The next input while training *)

Lemma Qgtb_lt x y : Qgtb x y = true <-> (y < x)%Q.
Proof.
  unfold Qgtb. rewrite negb_true_iff. split.
  - intros H. apply Qnot_le_lt. intros Hle. apply Qle_bool_iff in Hle. congruence.
  - intros H. destruct (Qle_bool x y) eqn:Hle; [|done].
    apply Qle_bool_iff in Hle. by apply Qlt_not_le in H.
Qed.

Lemma Qgtb_le x y : Qgtb x y = false <-> (x <= y)%Q.
Proof.
  unfold Qgtb. rewrite negb_false_iff. apply Qle_bool_iff.
Qed.

(** C5.  While training, a step draws one uniform number [u] of [[0, 1)]
    and compares the teacher forcing rate with it.  When [u] is below the
    rate, an event whose probability under the uniform law is the rate,
    the next input is made of the rows of the embedding table at the
    ground-truth tokens of position [t]; a position outside the teacher
    tokens fails the run.  Otherwise it is made of the rows at the tokens
    the categorical sampler draws from the logits of this step, whatever
    their argmax.  In both cases dropout is applied to those rows, and its
    result is the next [prev_char]. *)
Theorem training_next_input self enc_out enc_len (teacher : list ids) t state prev_char
    output rng :
  (forall cur_char state' alphas tokens rows,
     decode self enc_out enc_len state prev_char true = Returns (cur_char, state', alphas) ->
     ((random_uniform rng).1 < teacher_forcing_rate (Speller_args self))%Q ->
     0 <= t -> teacher !! Z.to_nat t = Some tokens ->
     rows_of (embedding_matrix self) tokens rows ->
     iteration self enc_out enc_len (Training teacher) ((t, state, prev_char, output), rng)
     = Returns ((t + 1, state',
                 (dropout rows (dropout_rate (Speller_args self)) (random_uniform rng).2).1,
                 output ++ [cur_char]),
                (dropout rows (dropout_rate (Speller_args self)) (random_uniform rng).2).2))
  /\ (forall cur_char state' alphas rows,
        decode self enc_out enc_len state prev_char true
          = Returns (cur_char, state', alphas) ->
        (teacher_forcing_rate (Speller_args self) <= (random_uniform rng).1)%Q ->
        rows_of (embedding_matrix self)
          (categorical_sample cur_char (random_uniform rng).2).1 rows ->
        iteration self enc_out enc_len (Training teacher) ((t, state, prev_char, output), rng)
        = Returns
            ((t + 1, state',
              (dropout rows (dropout_rate (Speller_args self))
                 (categorical_sample cur_char (random_uniform rng).2).2).1,
              output ++ [cur_char]),
             (dropout rows (dropout_rate (Speller_args self))
                (categorical_sample cur_char (random_uniform rng).2).2).2))
  /\ (forall cur_char state' alphas,
        decode self enc_out enc_len state prev_char true
          = Returns (cur_char, state', alphas) ->
        ((random_uniform rng).1 < teacher_forcing_rate (Speller_args self))%Q ->
        t < 0 \/ teacher !! Z.to_nat t = None ->
        iteration self enc_out enc_len (Training teacher) ((t, state, prev_char, output), rng)
        = Raises InvalidArgumentError).
Proof.
  split; [|split].
  - intros cur_char state' alphas tokens rows Hdec Hu Ht Htokens Hrows.
    unfold iteration. cbn [is_training]. rewrite Hdec. cbn [mbind run_bind].
    unfold next_input_training. destruct (random_uniform rng) as [u rng1]. cbn [fst snd] in *.
    apply Qgtb_lt in Hu. rewrite Hu. unfold slice_time.
    replace (t <? 0) with false by (symmetry; apply Z.ltb_ge; lia).
    rewrite Htokens. cbn [mbind run_bind]. unfold _look_up.
    rewrite (embedding_lookup_rows _ _ _ Hrows). cbn [mbind run_bind tf_layers_dropout].
    by destruct (dropout rows _ rng1).
  - intros cur_char state' alphas rows Hdec Hu Hrows.
    unfold iteration. cbn [is_training]. rewrite Hdec. cbn [mbind run_bind].
    unfold next_input_training. destruct (random_uniform rng) as [u rng1]. cbn [fst snd] in *.
    apply Qgtb_le in Hu. rewrite Hu. unfold _sample_char.
    destruct (categorical_sample cur_char rng1) as [sampled rng2]. cbn [fst snd] in *.
    unfold _look_up.
    rewrite (embedding_lookup_rows _ _ _ Hrows). cbn [mbind run_bind tf_layers_dropout].
    by destruct (dropout rows _ rng2).
  - intros cur_char state' alphas Hdec Hu Ht.
    unfold iteration. cbn [is_training]. rewrite Hdec. cbn [mbind run_bind].
    unfold next_input_training. destruct (random_uniform rng) as [u rng1]. cbn [fst snd] in *.
    apply Qgtb_lt in Hu. rewrite Hu. unfold slice_time.
    destruct (Z.ltb_spec t 0) as [|Hge]; [done|].
    destruct Ht as [Ht|Ht]; [lia|]. by rewrite Ht.
Qed.

(** ** The masked loss *)

Lemma same_shape_length {A B : Type} (x : list (list A)) (y : list (list B)) :
  same_shape x y -> shape_of x = shape_of y.
Proof.
  unfold shape_of. induction 1 as [|a b x y Hab _ IH]; [done|].
  cbn [map]. by rewrite Hab, IH.
Qed.

Lemma one_hot_row_length (index depth : Z) : length (one_hot_row index depth) = Z.to_nat depth.
Proof. unfold one_hot_row. by rewrite length_map, length_seq. Qed.

(** Logits with one row for each token and one entry for each class have
    the shape of the one-hot labels. *)
Lemma one_hot_shape (logits : list matrix) (y : list ids) (depth : Z) :
  same_shape logits y -> class_width logits depth ->
  map shape_of logits = map shape_of (tf_one_hot y depth).
Proof.
  unfold class_width, tf_one_hot, shape_of.
  induction 1 as [|slice tokens logits y Hlen _ IH]; intros Hwidth; [done|].
  inversion Hwidth as [|? ? Hslice Hlogits]; subst.
  cbn [map]. rewrite (IH Hlogits). f_equal. clear IH Hlogits Hwidth.
  revert tokens Hlen. induction Hslice as [|row slice Hrow _ IH]; intros [|token tokens] Hlen;
    try done.
  cbn [map]. cbn [length] in Hlen. rewrite one_hot_row_length, (IH tokens) by lia.
  f_equal. lia.
Qed.

Lemma cross_entropy_shape (f : vector -> vector -> Q) (logits : list matrix) (y : list ids)
    (depth : Z) :
  same_shape logits y ->
  shape_of (zip_with (zip_with f) logits (tf_one_hot y depth)) = shape_of (mask_of y).
Proof.
  unfold tf_one_hot, mask_of, shape_of.
  induction 1 as [|slice tokens logits y Hlen _ IH]; [done|].
  cbn [map zip_with]. rewrite IH. f_equal.
  rewrite length_zip_with, !length_map. lia.
Qed.

Lemma Qsum_app (l1 l2 : list Q) : (Qsum (l1 ++ l2) == Qsum l1 + Qsum l2)%Q.
Proof.
  induction l1 as [|a l1 IH]; simpl; [ring|].
  unfold Qsum in *. simpl. rewrite IH. ring.
Qed.

(** The mask keeps the terms at tokens other than PAD and zeroes the rest. *)
Lemma masked_row_sum (cross_entropy : vector) (tokens : ids) :
  (Qsum (zip_with Qmult cross_entropy
           (map (fun token => 1 - (if token =? 0 then 1 else 0)) tokens))
   == Qsum (non_pad_row cross_entropy tokens))%Q.
Proof.
  revert tokens. induction cross_entropy as [|c cs IH]; intros [|token tokens]; try done.
  unfold non_pad_row, Qsum in *. simpl.
  rewrite IH. destruct (token =? 0); simpl; ring.
Qed.

Lemma masked_sum (cross_entropy : list vector) (y : list ids) :
  (reduce_sum (zip_with (zip_with Qmult) cross_entropy (mask_of y))
   == Qsum (non_pad_terms cross_entropy y))%Q.
Proof.
  unfold reduce_sum, non_pad_terms, mask_of.
  revert y. induction cross_entropy as [|cs ce IH]; intros [|tokens y]; try done.
  simpl. rewrite Qsum_app. rewrite <- IH.
  change (Qsum (?a :: ?l)) with (a + Qsum l)%Q.
  by rewrite masked_row_sum.
Qed.

Lemma mask_row_sum (tokens : ids) :
  (Qsum (map (fun token => 1 - (if token =? 0 then 1 else 0)) tokens)
   == inject_Z (Z.of_nat (length (List.filter (fun token => negb (token =? 0)) tokens))))%Q.
Proof.
  induction tokens as [|token tokens IH]; [done|].
  unfold Qsum in *. simpl. rewrite IH.
  destruct (token =? 0); simpl length; [ring|].
  rewrite Nat2Z.inj_succ, <- Z.add_1_l, inject_Z_plus. ring.
Qed.

Lemma mask_sum (y : list ids) :
  (reduce_sum (mask_of y) == inject_Z (Z.of_nat (count_non_pad y)))%Q.
Proof.
  unfold reduce_sum, mask_of, count_non_pad.
  induction y as [|tokens y IH]; [done|].
  simpl. rewrite List.filter_app, length_app, Nat2Z.inj_add, inject_Z_plus.
  rewrite <- IH, <- mask_row_sum. reflexivity.
Qed.

Lemma denominator_positive (y : list ids) :
  (0 < inject_Z (Z.of_nat (count_non_pad y)) + eps)%Q.
Proof.
  apply Qlt_le_trans with (y := eps); [done|].
  rewrite <- (Qplus_0_l eps) at 1. apply Qplus_le_l.
  change 0%Q with (inject_Z 0). rewrite <- Zle_Qle. lia.
Qed.

Lemma all_pad_no_terms (cross_entropy : list vector) (y : list ids) :
  Forall (Forall (eq 0)) y -> non_pad_terms cross_entropy y = [].
Proof.
  unfold non_pad_terms. intros Hpad. revert cross_entropy.
  induction Hpad as [|tokens y Htokens Hy IH]; intros [|cs ce]; try done.
  simpl. rewrite IH, app_nil_r. clear IH Hy.
  revert cs. induction Htokens as [|token tokens <- Htokens IH]; intros [|c cs]; try done.
  unfold non_pad_row in *. simpl. apply IH.
Qed.

(** The loss on logits of the shape of the tokens. *)
Lemma get_loss_value self logits y charlen :
  same_shape logits y ->
  class_width logits (vocab_size (LAS_args self)) ->
  tf_softmax_cross_entropy logits (tf_one_hot y (vocab_size (LAS_args self)))
  = Returns (zip_with (zip_with softmax_cross_entropy_with_logits) logits
               (tf_one_hot y (vocab_size (LAS_args self))))
  /\ _get_loss self logits y charlen
     = Returns (reduce_sum
                  (zip_with (zip_with Qmult)
                     (zip_with (zip_with softmax_cross_entropy_with_logits) logits
                        (tf_one_hot y (vocab_size (LAS_args self))))
                     (mask_of y))
                / (reduce_sum (mask_of y) + eps))%Q.
Proof.
  intros Hshape Hwidth.
  set (V := vocab_size (LAS_args self)) in *.
  set (ce := zip_with (zip_with softmax_cross_entropy_with_logits) logits (tf_one_hot y V)).
  assert (Hce : tf_softmax_cross_entropy logits (tf_one_hot y V) = Returns ce).
  { unfold tf_softmax_cross_entropy.
    by rewrite decide_True by (by apply one_hot_shape). }
  assert (Hmul : tf_multiply ce (mask_of y) = Returns (zip_with (zip_with Qmult) ce (mask_of y))).
  { unfold tf_multiply. by rewrite decide_True by (by apply cross_entropy_shape). }
  pose proof (denominator_positive y) as Hpos.
  assert (Hnz : Qeq_bool (reduce_sum (mask_of y) + eps) 0 = false).
  { destruct (Qeq_bool _ 0) eqn:Heq; [|done].
    apply Qeq_bool_eq in Heq. rewrite mask_sum in Heq. rewrite Heq in Hpos.
    by apply Qlt_irrefl in Hpos. }
  split; [exact Hce|].
  unfold _get_loss. fold V. rewrite Hce. cbn [mbind run_bind].
  rewrite Hmul. cbn [mbind run_bind]. unfold tf_divide. by rewrite Hnz.
Qed.

(** C4.  On logits with one row for each token and one entry for each of
    the [vocab_size] classes, the loss is a number: the sum of the
    cross-entropy over the positions whose token is not PAD (id 0), divided
    by the number of those positions plus [1e-9], a divisor that is never
    zero.  When every token is PAD the loss is 0. *)
Theorem masked_loss_skips_padding self logits y charlen :
  same_shape logits y ->
  class_width logits (vocab_size (LAS_args self)) ->
  exists cross_entropy loss,
    tf_softmax_cross_entropy logits (tf_one_hot y (vocab_size (LAS_args self)))
      = Returns cross_entropy
    /\ cross_entropy
       = zip_with (zip_with softmax_cross_entropy_with_logits) logits
           (tf_one_hot y (vocab_size (LAS_args self)))
    /\ _get_loss self logits y charlen = Returns loss
    /\ (loss == Qsum (non_pad_terms cross_entropy y)
                / (inject_Z (Z.of_nat (count_non_pad y)) + (1 # 1000000000)))%Q
    /\ (0 < inject_Z (Z.of_nat (count_non_pad y)) + (1 # 1000000000))%Q
    /\ (Forall (Forall (eq 0)) y -> (loss == 0)%Q).
Proof.
  intros Hshape Hwidth.
  destruct (get_loss_value self logits y charlen Hshape Hwidth) as [Hce Hloss].
  pose proof (denominator_positive y) as Hpos. fold eps.
  assert (Hden : (reduce_sum (mask_of y) + eps == inject_Z (Z.of_nat (count_non_pad y)) + eps)%Q)
    by (by rewrite mask_sum).
  eexists _, _. split; [exact Hce|]. split; [reflexivity|]. split; [exact Hloss|].
  split; [by rewrite masked_sum, Hden|]. split; [exact Hpos|].
  intros Hpad. rewrite masked_sum, (all_pad_no_terms _ y Hpad).
  unfold Qsum. simpl. unfold Qdiv. ring.
Qed.

End Properties.

(** ** Concrete runs *)

#[local] Existing Instance Toy.backend.



Lemma Speller_total_without_steps_witness :
  2 <= vocab_size Toy.args
  /\ 0 <= 0
  /\ Speller_call (Speller_init Toy.args ∅) Toy.audio [3] 0 Inference [] 0 = Returns ([], [])
  /\ decode_steps (convert_rate Toy.args) [3] = 0
  /\ LAS_inference
       (LAS_init Toy.args (Listener_init Toy.args) (Speller_init Toy.args ∅) ∅ ∅)
       (Toy.audio, [3]) [] 0 = Returns ([], [], []).
Proof.
  assert (HV : 2 <= vocab_size Toy.args) by (vm_compute; discriminate).
  assert (H0 : 0 <= 0) by lia.
  assert (Hcast : decode_steps (convert_rate Toy.args) [3] = 0) by (vm_compute; reflexivity).
  pose proof (Speller_total_without_steps (K := Toy.backend) Toy.args
                (Listener_init Toy.args) (Speller_init Toy.args ∅) ∅ ∅
                Toy.audio [3] 0 Inference [] 0%nat HV H0) as (_ & Hcall & Hinf).
  split; [exact HV|]. split; [exact H0|]. split; [exact Hcall|]. split; [exact Hcast|].
  exact (Hinf Toy.audio [3] Hcast).
Defined.

(** C9 as first stated fails.  With a vocabulary of one token the start
    token id 1 is outside the embedding table, and the lookup at loop entry
    fails although no step is asked for; [inference] on a short input fails
    the same way with the falsy [vocab_size = 0] that [LAS.__init__] leaves
    in place. *)
Lemma Speller_without_steps_raises :
  (vocab_size Toy.args_one_token = 1
   /\ forall fuel,
        Speller_call (Speller_init Toy.args_one_token ∅) Toy.audio [3] 0 Inference [] fuel
        = Raises InvalidArgumentError)
  /\ (vocab_size Toy.args_no_vocab_size = 0
      /\ decode_steps (convert_rate Toy.args_no_vocab_size) [3] = 0
      /\ forall fuel,
           LAS_inference
             (LAS_init Toy.args_no_vocab_size (Listener_init Toy.args_no_vocab_size)
                (Speller_init Toy.args_no_vocab_size ∅) ∅ ∅)
             (Toy.audio, [3]) [] fuel
           = Raises InvalidArgumentError).
Proof.
  split; [split; [reflexivity|]|split; [reflexivity|split; [vm_compute; reflexivity|]]];
    intros fuel; destruct fuel; vm_compute; reflexivity.
Qed.

Lemma hidden_state_summary_witness :
  state_ok (_build_decoder_cell Toy.args) (zero_state (_build_decoder_cell Toy.args) 2)
  /\ num_dec_layers Toy.args = 1
  /\ _get_hidden_state (Speller_init Toy.args ∅) (zero_state (_build_decoder_cell Toy.args) 2)
      = Returns (Rank2 [[0; 0]; [0; 0]]%Q).
Proof.
  assert (Hok : state_ok (_build_decoder_cell Toy.args)
                  (zero_state (_build_decoder_cell Toy.args) 2)) by exact I.
  assert (HL : num_dec_layers Toy.args = 1) by reflexivity.
  split; [exact Hok|]. split; [exact HL|].
  destruct (hidden_state_summary (K := Toy.backend) Toy.args ∅
              (zero_state (_build_decoder_cell Toy.args) 2) Toy.audio [4] [] false Hok)
    as (_ & Hone & _).
  destruct (Hone HL) as (h & Hstate & Hsum).
  rewrite Hsum. f_equal. f_equal. by injection Hstate as <-.
Defined.

(** C2 as first stated fails: for one layer the summary is the whole state
    tensor, not its component [dec_state[1]]. *)
Lemma single_layer_summary_is_not_component :
  num_dec_layers Toy.args = 1
  /\ _get_hidden_state (Speller_init Toy.args ∅) (zero_state (_build_decoder_cell Toy.args) 2)
      = Returns (Rank2 [[0; 0]; [0; 0]]%Q)
  /\ getitem_1 (zero_state (_build_decoder_cell Toy.args) 2) = Returns (Rank1 [0; 0]%Q)
  /\ _get_hidden_state (Speller_init Toy.args ∅) (zero_state (_build_decoder_cell Toy.args) 2)
      <> getitem_1 (zero_state (_build_decoder_cell Toy.args) 2).
Proof. repeat split. discriminate. Qed.


(** One training step on a batch of one.  Under a rate of 1 the draw 1/2
    forces the teacher token 5 of position 0, whose row is [[5, 5]]; under
    a rate of 0 the same draw sends the step to the sampler, which picks
    class 3 where the argmax of the logits is class 5. *)
Lemma training_next_input_witness :
  iteration (Speller_init Toy.args ∅) Toy.audio [4] (Training [[5]; [2]])
    ((0, StTensor [[0; 0]]%Q, [[1; 1]]%Q, [zeros 1 6]), [1 # 2]%Q)
  = Returns
      ((1, StTensor [[3; 3]]%Q, [[5; 5]]%Q,
        [zeros 1 6; [[6; 12; 18; 24; 30; 36]]%Q]), [])
  /\ iteration (Speller_init Samples.args_sampling ∅) Toy.audio [4] (Training [[5]; [2]])
       ((0, StTuple [[[0; 0]]; [[0; 0]]]%Q, [[1; 1]]%Q, [zeros 1 6]), [1 # 2; 0]%Q)
     = Returns
         ((1, StTuple [[[3; 3]]; [[6; 6]]]%Q, [[3; 3]]%Q,
           [zeros 1 6; [[12; 24; 36; 48; 60; 72]]%Q]), [])
  /\ argmax 6 [[12; 24; 36; 48; 60; 72]]%Q = Returns [5].
Proof.
  destruct (training_next_input (K := Toy.backend) (Speller_init Toy.args ∅) Toy.audio [4]
              [[5]; [2]] 0 (StTensor [[0; 0]]%Q) [[1; 1]]%Q [zeros 1 6] [1 # 2]%Q)
    as (Hforced & _ & _).
  destruct (training_next_input (K := Toy.backend) (Speller_init Samples.args_sampling ∅)
              Toy.audio [4] [[5]; [2]] 0 (StTuple [[[0; 0]]; [[0; 0]]]%Q) [[1; 1]]%Q
              [zeros 1 6] [1 # 2; 0]%Q)
    as (_ & Hsampled & _).
  split; [|split; [|reflexivity]].
  - etrans; [|reflexivity].
    apply (Hforced [[6; 12; 18; 24; 30; 36]]%Q (StTensor [[3; 3]]%Q) [[0; 0; 0; 0]]%Q
             [5] [[5; 5]]%Q);
      [reflexivity | reflexivity | lia | reflexivity |].
    constructor; [split; [lia|reflexivity]|constructor].
  - etrans; [|reflexivity].
    apply (Hsampled [[12; 24; 36; 48; 60; 72]]%Q (StTuple [[[3; 3]]; [[6; 6]]]%Q)
             [[0; 0; 0; 0]]%Q [[3; 3]]%Q);
      [reflexivity | vm_compute; discriminate |].
    constructor; [split; [vm_compute; discriminate|reflexivity]|constructor].
Defined.

(** The step count is a float32 product: 0.21 times 300 is just below 63,
    0.33333333 times 3 rounds up to 1, 0.7 times 10 rounds up to 7, and 4
    times 1e9 is outside int32. *)
Example decode_steps_float32 :
  decode_steps (21 # 100) [300] = 62
  /\ decode_steps (33333333 # 100000000) [3] = 1
  /\ decode_steps (7 # 10) [10] = 7
  /\ decode_steps 4 [1000000000] = -2147483648
  /\ decode_steps (1 # 4) [3; 2] = 0.
Proof. vm_compute. repeat split. Qed.

Lemma masked_loss_skips_padding_witness :
  same_shape [[[1; 2; 3; 4; 5; 6]]; [[6; 5; 4; 3; 2; 1]]]%Q [[0]; [0]]
  /\ class_width [[[1; 2; 3; 4; 5; 6]]; [[6; 5; 4; 3; 2; 1]]]%Q
       (vocab_size
          (LAS_args
             (LAS_init Toy.args (Listener_init Toy.args) (Speller_init Toy.args ∅) ∅ ∅)))
  /\ Forall (Forall (eq 0)) [[0]; [0]]
  /\ exists loss,
       _get_loss (LAS_init Toy.args (Listener_init Toy.args) (Speller_init Toy.args ∅) ∅ ∅)
         [[[1; 2; 3; 4; 5; 6]]; [[6; 5; 4; 3; 2; 1]]]%Q [[0]; [0]] [1] = Returns loss
       /\ (loss == 0)%Q.
Proof.
  assert (Hshape : same_shape [[[1; 2; 3; 4; 5; 6]]; [[6; 5; 4; 3; 2; 1]]]%Q [[0]; [0]])
    by (repeat constructor).
  assert (Hwidth : class_width [[[1; 2; 3; 4; 5; 6]]; [[6; 5; 4; 3; 2; 1]]]%Q
                     (vocab_size
                        (LAS_args
                           (LAS_init Toy.args (Listener_init Toy.args)
                              (Speller_init Toy.args ∅) ∅ ∅))))
    by (repeat constructor).
  assert (Hpad : Forall (Forall (eq 0)) [[0]; [0]]) by (repeat constructor).
  split; [exact Hshape|]. split; [exact Hwidth|]. split; [exact Hpad|].
  destruct (masked_loss_skips_padding (K := Toy.backend)
              (LAS_init Toy.args (Listener_init Toy.args) (Speller_init Toy.args ∅) ∅ ∅)
              [[[1; 2; 3; 4; 5; 6]]; [[6; 5; 4; 3; 2; 1]]]%Q [[0]; [0]] [1] Hshape Hwidth)
    as (cross_entropy & loss & _ & _ & Hloss & _ & _ & Hzero).
  exists loss. split; [exact Hloss|exact (Hzero Hpad)].
Defined.

(** ** A run of both entry points

    One utterance of four frames and the three tokens [5, 12, 2] (2 is
    [<EOS>]): [train] yields three slices of logits and a loss, and
    [inference] with [convert_rate = 3/4] yields three token ids. *)

Example train_three_tokens :
  exists loss logits rng',
    LAS_train
      (LAS_init Toy.args_chars (Listener_init Toy.args_chars)
         (Speller_init Toy.args_chars ∅) ∅ ∅)
      (Toy.audio, [4]) ([[5]; [12]; [2]], [3]) [1 # 4; 3 # 4; 1 # 3; 0; 0; 0; 0; 0]%Q 3
      = Returns (loss, logits, rng')
    /\ length logits = 3%nat.
Proof. vm_compute. by eexists _, _, _. Qed.

Example inference_three_tokens :
  exists logits y_hat,
    LAS_inference
      (LAS_init Toy.args_chars (Listener_init Toy.args_chars)
         (Speller_init Toy.args_chars ∅) ∅ ∅)
      (Toy.audio, [4]) [] 3
      = Returns (logits, y_hat, [])
    /\ length y_hat = 3%nat.
Proof. vm_compute. by eexists _, _. Qed.

(** * Properties of the tokenizer and the preprocessing *)

(** ** The two dictionaries of [lookup_dicts] *)

Lemma lookup_dicts_fold special_tokens :
  lookup_dicts special_tokens
  = foldl dict_step (∅, ∅) (enumerate_from 0 (all_tokens special_tokens)).
Proof. reflexivity. Qed.

Lemma dict_fold_id_to_token (tokens : list string) :
  forall (k : nat) (acc : gmap string nat * gmap nat string) (i : nat),
    (foldl dict_step acc (enumerate_from k tokens)).2 !! i
    = if decide (k <= i < k + length tokens)%nat then tokens !! (i - k)%nat else acc.2 !! i.
Proof.
  induction tokens as [|c tokens IH]; intros k [m1 m2] i; simpl.
  - case_decide; [lia|done].
  - rewrite IH. simpl.
    destruct (decide (i = k)) as [->|Hne].
    + rewrite decide_False by lia. rewrite decide_True by lia.
      rewrite Nat.sub_diag. simpl. apply lookup_insert_eq.
    + rewrite lookup_insert_ne by done.
      repeat case_decide; try lia; try done.
      by replace (i - k)%nat with (S (i - S k)) by lia.
Qed.

Lemma dict_fold_token_to_id (tokens : list string) :
  forall (k : nat) (acc : gmap string nat * gmap nat string) (c : string) (i : nat),
    (foldl dict_step acc (enumerate_from k tokens)).1 !! c = Some i ->
    (k <= i < k + length tokens /\ tokens !! (i - k) = Some c
     /\ forall j, (i - k < j)%nat -> tokens !! j ≠ Some c)%nat
    \/ (acc.1 !! c = Some i /\ c ∉ tokens).
Proof.
  induction tokens as [|c0 tokens IH]; intros k [m1 m2] c i H; simpl in *.
  - right. split; [done|]. apply not_elem_of_nil.
  - destruct (IH (S k) _ c i H) as [(Hi & Hc & Hlast)|[Hacc Hnot]].
    + left. split; [lia|]. replace (i - k)%nat with (S (i - S k)) by lia.
      split; [done|]. intros [|j] Hj; [lia|]. simpl. apply Hlast. lia.
    + simpl in Hacc. destruct (decide (c0 = c)) as [->|Hne].
      * rewrite lookup_insert_eq in Hacc. injection Hacc as <-.
        left. rewrite Nat.sub_diag. split; [lia|]. split; [done|].
        intros [|j] Hj; [lia|]. simpl. intros Hin.
        apply Hnot. by eapply list_elem_of_lookup_2.
      * rewrite lookup_insert_ne in Hacc by done.
        right. split; [done|]. rewrite not_elem_of_cons. by split.
Qed.

Lemma dict_fold_token_to_id_elem (tokens : list string) :
  forall (k : nat) (acc : gmap string nat * gmap nat string) (c : string),
    c ∈ tokens -> is_Some ((foldl dict_step acc (enumerate_from k tokens)).1 !! c).
Proof.
  induction tokens as [|c0 tokens IH]; intros k [m1 m2] c Hin; simpl.
  - by apply elem_of_nil in Hin.
  - destruct (decide (c ∈ tokens)) as [Hin'|Hnot]; [by apply IH|].
    apply elem_of_cons in Hin as [->|?]; [|done].
    destruct ((foldl dict_step (<[c0:=k]> m1, <[k:=c0]> m2)
                 (enumerate_from (S k) tokens)).1 !! c0) as [i|] eqn:Hlook; [done|].
    exfalso. revert Hlook. generalize (S k), (<[k:=c0]> m2).
    assert (Hm : is_Some (<[c0:=k]> m1 !! c0)) by (rewrite lookup_insert_eq; done).
    revert Hm. generalize (<[c0:=k]> m1). clear IH Hnot.
    induction tokens as [|c1 tokens IH]; intros m Hm n g Hlook; simpl in Hlook.
    + rewrite Hlook in Hm. by destruct Hm.
    + eapply (IH (<[c1:=n]> m)); [|done].
      destruct (decide (c1 = c0)) as [->|Hne];
        [rewrite lookup_insert_eq|rewrite lookup_insert_ne by done]; done.
Qed.

(** [id2char] holds the tokens by position. *)
Lemma lookup_dicts_id_to_token special_tokens (i : nat) :
  (lookup_dicts special_tokens).2 !! i = all_tokens special_tokens !! i.
Proof.
  rewrite lookup_dicts_fold, dict_fold_id_to_token. simpl.
  rewrite Nat.sub_0_r. case_decide; [done|].
  symmetry. apply lookup_ge_None. lia.
Qed.

(** [char2id] sends a token to the last position that holds it. *)
Lemma lookup_dicts_token_to_id special_tokens (c : string) (i : nat) :
  (lookup_dicts special_tokens).1 !! c = Some i ->
  all_tokens special_tokens !! i = Some c
  /\ forall j, (i < j)%nat -> all_tokens special_tokens !! j ≠ Some c.
Proof.
  rewrite lookup_dicts_fold. intros H.
  apply dict_fold_token_to_id in H as [(Hi & Hc & Hlast)|[Hacc _]].
  - rewrite Nat.sub_0_r in *. split; [done|]. intros j Hj. apply Hlast. lia.
  - simpl in Hacc. by rewrite lookup_empty in Hacc.
Qed.

Lemma lookup_dicts_token_to_id_is_Some special_tokens (c : string) :
  is_Some ((lookup_dicts special_tokens).1 !! c) <-> c ∈ all_tokens special_tokens.
Proof.
  split.
  - intros [i Hi]. apply lookup_dicts_token_to_id in Hi as [Hi _].
    by eapply list_elem_of_lookup_2.
  - intros Hin. rewrite lookup_dicts_fold. by apply dict_fold_token_to_id_elem.
Qed.

Lemma lookup_dicts_id_to_token_eq special_tokens :
  (lookup_dicts special_tokens).2 = map_seq 0 (all_tokens special_tokens).
Proof.
  apply map_eq. intros i. by rewrite lookup_dicts_id_to_token, lookup_map_seq_0.
Qed.

Lemma lookup_dicts_dom special_tokens :
  dom (lookup_dicts special_tokens).1 = list_to_set (all_tokens special_tokens).
Proof.
  apply set_eq. intros c.
  rewrite elem_of_dom, elem_of_list_to_set. apply lookup_dicts_token_to_id_is_Some.
Qed.

Lemma size_map_seq_0 (l : list string) : size (map_seq 0 l : gmap nat string) = length l.
Proof.
  induction l as [|x l IH] using rev_ind; [done|].
  rewrite map_seq_snoc, length_app. simpl.
  rewrite map_size_insert_None; [lia|].
  apply lookup_map_seq_None. lia.
Qed.

Lemma chars_length (s : string) : length (chars s) = String.length s.
Proof. induction s as [|a s IH]; simpl; [done|by rewrite IH]. Qed.

Lemma chars_single (s c : string) : c ∈ chars s -> exists a, c = String a EmptyString.
Proof.
  induction s as [|a s IH]; simpl; intros Hin.
  - by apply elem_of_nil in Hin.
  - apply elem_of_cons in Hin as [->|Hin]; [by exists a|by apply IH].
Qed.

Lemma all_tokens_length special_tokens :
  length (all_tokens special_tokens) = (length special_tokens + 26)%nat.
Proof. unfold all_tokens. rewrite length_app. reflexivity. Qed.

Lemma size_list_to_set_le (l : list string) :
  (size (list_to_set l : gset string) <= length l)%nat.
Proof.
  induction l as [|x l IH]; [rewrite list_to_set_nil, size_empty; simpl; lia|].
  rewrite list_to_set_cons, size_union_alt, size_singleton. simpl.
  assert (Hle : (size ((list_to_set l : gset string) ∖ {[x]})
                 <= size (list_to_set l : gset string))%nat)
    by (by apply subseteq_size, subseteq_difference_l).
  lia.
Qed.

(** X1.  [lookup_dicts] numbers the tokens by position: [id_to_token] at [i] is
    the [i]-th of the special tokens followed by the 26 capitals, so it has
    as many entries as there are tokens, and [token_to_id] never has more. *)
Theorem lookup_dicts_ids_by_position special_tokens (i : nat) :
  (lookup_dicts special_tokens).2 !! i
    = (special_tokens ++ take 26 (chars ascii_uppercase)) !! i
  /\ size (lookup_dicts special_tokens).2 = (length special_tokens + 26)%nat
  /\ (size (lookup_dicts special_tokens).1 <= size (lookup_dicts special_tokens).2)%nat.
Proof.
  split; [apply lookup_dicts_id_to_token|].
  assert (Hsize : size (lookup_dicts special_tokens).2 = (length special_tokens + 26)%nat)
    by (by rewrite lookup_dicts_id_to_token_eq, size_map_seq_0, all_tokens_length).
  split; [done|].
  rewrite Hsize, <- size_dom, lookup_dicts_dom, <- all_tokens_length.
  apply size_list_to_set_le.
Qed.

(** X2.  An id that [token_to_id] gives for a token leads back to that token
    through [id_to_token]; it is below the number of tokens and is the last
    position where the token stands. *)
Theorem lookup_dicts_round_trip special_tokens (c : string) (i : nat) :
  (lookup_dicts special_tokens).1 !! c = Some i ->
  (lookup_dicts special_tokens).2 !! i = Some c
  /\ (i < length special_tokens + 26)%nat
  /\ forall j, (i < j)%nat -> (lookup_dicts special_tokens).2 !! j ≠ Some c.
Proof.
  intros H. apply lookup_dicts_token_to_id in H as [Hi Hlast].
  split; [by rewrite lookup_dicts_id_to_token|]. split.
  - apply lookup_lt_Some in Hi. by rewrite all_tokens_length in Hi.
  - intros j Hj. rewrite lookup_dicts_id_to_token. by apply Hlast.
Qed.

(** X3.  When no token is listed twice the two dictionaries of [lookup_dicts]
    are inverse to each other and have the same size. *)
Theorem lookup_dicts_distinct_tokens special_tokens :
  NoDup (special_tokens ++ take 26 (chars ascii_uppercase)) ->
  (forall c i, (lookup_dicts special_tokens).2 !! i = Some c
               <-> (lookup_dicts special_tokens).1 !! c = Some i)
  /\ size (lookup_dicts special_tokens).1 = size (lookup_dicts special_tokens).2.
Proof.
  intros Hnodup. split.
  - intros c i. split.
    + rewrite lookup_dicts_id_to_token. intros Hi.
      destruct (proj2 (lookup_dicts_token_to_id_is_Some special_tokens c)) as [j Hj].
      { by eapply list_elem_of_lookup_2. }
      rewrite Hj. f_equal.
      apply lookup_dicts_token_to_id in Hj as [Hj _].
      by eapply NoDup_lookup.
    + intros H. rewrite lookup_dicts_id_to_token.
      by apply lookup_dicts_token_to_id in H as [? _].
  - rewrite <- size_dom, lookup_dicts_dom, size_list_to_set by done.
    by rewrite lookup_dicts_id_to_token_eq, size_map_seq_0.
Qed.

(** ** Construction of a [text_encoder] *)

(** X4.  [text_encoder] can be built for the unit [char] only: for [subword]
    the constructor reads [self.subword_tokenizer] before anything sets it and
    raises an attribute error, and for any other unit it raises the exception
    ["Unit not support!"]. *)
Theorem text_encoder_init_units (unit : string) special_tokens :
  ((exists self, text_encoder_init unit special_tokens = Ok self) <-> unit = "char")
  /\ (unit = "subword" ->
      text_encoder_init unit special_tokens
      = Throws (AttributeError "subword_tokenizer"))
  /\ (unit ≠ "char" -> unit ≠ "subword" ->
      text_encoder_init unit special_tokens
      = Throws (PlainException "Unit not support!")).
Proof.
  unfold text_encoder_init.
  destruct (decide (unit = "char")) as [->|Hchar].
  - split; [|split; [discriminate|done]].
    split; [done|]. intros _. destruct (lookup_dicts special_tokens). by eexists.
  - destruct (decide (unit = "subword")) as [->|Hsub].
    + split; [|split; [done|done]].
      split; [|done]. intros [self H]. discriminate.
    + split; [|split; [done|done]].
      split; [|done]. intros [self H]. discriminate.
Qed.

(** ** Encoding characters *)

Lemma traverse_length {A B : Type} (f : A -> outcome B) (l : list A) (bs : list B) :
  traverse f l = Ok bs -> length bs = length l.
Proof.
  revert bs. induction l as [|a l IH]; simpl; intros bs H.
  - by injection H as <-.
  - destruct (f a) as [b|e]; [|done]. simpl in H.
    destruct (traverse f l) as [bs'|e]; [|done]. simpl in H.
    injection H as <-. simpl. by rewrite (IH bs').
Qed.

Lemma traverse_Forall2 {A B : Type} (f : A -> outcome B) (l : list A) (bs : list B) :
  traverse f l = Ok bs -> Forall2 (fun a b => f a = Ok b) l bs.
Proof.
  revert bs. induction l as [|a l IH]; simpl; intros bs H.
  - injection H as <-. constructor.
  - destruct (f a) as [b|e] eqn:Hfa; [|done]. simpl in H.
    destruct (traverse f l) as [bs'|e]; [|done]. simpl in H.
    injection H as <-. constructor; [done|by apply IH].
Qed.

Lemma traverse_Ok {A B : Type} (f : A -> outcome B) (Q : B -> Prop) (l : list A) :
  Forall (fun a => exists b, f a = Ok b /\ Q b) l ->
  exists bs, traverse f l = Ok bs /\ Forall Q bs.
Proof.
  induction 1 as [|a l (b & Hb & HQ) _ (bs & Hbs & HQs)]; simpl.
  - by exists [].
  - exists (b :: bs). rewrite Hb. simpl. rewrite Hbs. simpl. split; [done|by constructor].
Qed.

Lemma traverse_Throws {A B : Type} (f : A -> outcome B) (pre post : list A) (a : A) (e : exn) :
  Forall (fun a => exists b, f a = Ok b) pre -> f a = Throws e ->
  traverse f (pre ++ a :: post) = Throws e.
Proof.
  intros Hpre Ha. induction Hpre as [|x pre [b Hb] _ IH]; simpl.
  - by rewrite Ha.
  - rewrite Hb. simpl. by rewrite IH.
Qed.

Lemma encode_chars_char_unit special_tokens self sentence with_eos :
  text_encoder_init "char" special_tokens = Ok self ->
  text_encoder_encode self sentence with_eos
  = (tokens ← traverse (encode_char (lookup_dicts special_tokens).1) (chars sentence);
     if with_eos
     then eos ← getitem (lookup_dicts special_tokens).1 "<EOS>"; Ok (tokens ++ [eos])
     else Ok tokens).
Proof.
  unfold text_encoder_init. simpl.
  destruct (lookup_dicts special_tokens) as [char2id id2char]. intros H.
  injection H as <-. reflexivity.
Qed.

Lemma encode_char_spelled special_tokens (char : string) (i : nat) :
  encode_char (lookup_dicts special_tokens).1 char = Ok i ->
  (lookup_dicts special_tokens).2 !! i
  = Some (if decide (char ≠ " ") then char else "<SPACE>").
Proof.
  unfold encode_char, getitem. intros H.
  destruct (decide (char ≠ " "));
    (destruct (_ !! _) as [j|] eqn:Hj in H; [|done]); injection H as ->;
    apply lookup_dicts_token_to_id in Hj as [Hj _];
    by rewrite lookup_dicts_id_to_token.
Qed.

(** X5.  What [_encode_chars] returns has one id for each character, and one
    more with [with_eos]; read back through [id2char] it spells the sentence
    with [<SPACE>] for each space and [<EOS>] at the end; every id is below
    [get_vocab_size], which is the number of tokens. *)
Theorem encode_chars_round_trip special_tokens self sentence with_eos tokens :
  text_encoder_init "char" special_tokens = Ok self ->
  text_encoder_encode self sentence with_eos = Ok tokens ->
  length tokens = (String.length sentence + (if with_eos then 1 else 0))%nat
  /\ map (fun i => (lookup_dicts special_tokens).2 !! i) tokens
     = map Some (spelled sentence with_eos)
  /\ get_vocab_size self = Ok (length special_tokens + 26)%nat
  /\ Forall (fun i => (i < length special_tokens + 26)%nat) tokens.
Proof.
  intros Hinit Henc.
  assert (Hdecode : map (fun i => (lookup_dicts special_tokens).2 !! i) tokens
                    = map Some (spelled sentence with_eos)
                    /\ length tokens
                       = (String.length sentence + (if with_eos then 1 else 0))%nat).
  { rewrite (encode_chars_char_unit _ _ _ _ Hinit) in Henc.
    destruct (traverse _ (chars sentence)) as [ts|e] eqn:Hts; [|done]. simpl in Henc.
    assert (Hmap : map (fun i => (lookup_dicts special_tokens).2 !! i) ts
                   = map Some (map (fun char => if decide (char ≠ " ") then char
                                                else "<SPACE>") (chars sentence))).
    { apply traverse_Forall2 in Hts. clear Henc.
      induction Hts as [|c i cs ts Hc _ IH]; [done|].
      simpl. f_equal; [by apply encode_char_spelled|done]. }
    pose proof (traverse_length _ _ _ Hts) as Hlen. rewrite chars_length in Hlen.
    unfold spelled. destruct with_eos.
    - unfold getitem in Henc.
      destruct (_ !! "<EOS>") as [eos|] eqn:Heos; [|done]. simpl in Henc.
      injection Henc as <-. rewrite !map_app, Hmap, length_app. simpl.
      split; [|lia]. f_equal. f_equal.
      apply lookup_dicts_token_to_id in Heos as [Heos _].
      by rewrite lookup_dicts_id_to_token.
    - injection Henc as <-. rewrite app_nil_r. split; [done|lia]. }
  destruct Hdecode as [Hdecode Hlen].
  split; [done|]. split; [done|]. split.
  - unfold text_encoder_init in Hinit. simpl in Hinit.
    pose proof (lookup_dicts_id_to_token_eq special_tokens) as Hid.
    destruct (lookup_dicts special_tokens) as [char2id id2char].
    injection Hinit as <-. unfold get_vocab_size. simpl in *.
    by rewrite Hid, size_map_seq_0, all_tokens_length.
  - clear Hlen Henc. revert Hdecode. generalize (spelled sentence with_eos).
    induction tokens as [|i tokens IH]; intros [|c cs] Hdecode; try done.
    simpl in Hdecode. injection Hdecode as Hc Hrest.
    constructor; [|by eapply IH].
    rewrite lookup_dicts_id_to_token in Hc.
    apply lookup_lt_Some in Hc. by rewrite all_tokens_length in Hc.
Qed.

(** ** Encoding with the reserved tokens of [preprocess.py] *)

Lemma encode_char_encodable (char : string) :
  encodable char ->
  exists i, encode_char (lookup_dicts special_tokens).1 char = Ok i /\ (2 <= i < 30)%nat.
Proof.
  intros [->|Hin].
  - exists 3%nat. split; [reflexivity|lia].
  - simpl in Hin.
    repeat (apply elem_of_cons in Hin as [->|Hin];
            [eexists; split; [vm_compute; reflexivity|lia]|]).
    by apply elem_of_nil in Hin.
Qed.

Lemma encode_char_not_encodable (a : Ascii.ascii) :
  ~ encodable (String a EmptyString) ->
  encode_char (lookup_dicts special_tokens).1 (String a EmptyString)
  = Throws (KeyError (String a EmptyString)).
Proof.
  intros Hnot. unfold encode_char, getitem.
  rewrite decide_True by (intros Heq; apply Hnot; by left).
  destruct (_ !! _) as [i|] eqn:Hi; [|done].
  exfalso. apply Hnot. right.
  assert (Hin : String a EmptyString ∈ all_tokens special_tokens).
  { apply lookup_dicts_token_to_id_is_Some. by exists i. }
  unfold all_tokens in Hin. apply elem_of_app in Hin as [Hin|Hin]; [|done].
  unfold special_tokens in Hin.
  repeat (apply elem_of_cons in Hin as [Heq|Hin]; [discriminate|]).
  by apply elem_of_nil in Hin.
Qed.

Lemma encode_encodable_returns self sentence with_eos :
  text_encoder_init "char" special_tokens = Ok self ->
  Forall encodable (chars sentence) ->
  exists tokens,
    text_encoder_encode self sentence with_eos = Ok tokens
    /\ length tokens = (String.length sentence + (if with_eos then 1 else 0))%nat
    /\ Forall (fun i => (2 <= i < 30)%nat) tokens.
Proof.
  intros Hinit Hs. rewrite (encode_chars_char_unit _ _ _ _ Hinit).
  destruct (traverse_Ok (encode_char (lookup_dicts special_tokens).1)
              (fun i => (2 <= i < 30)%nat) (chars sentence)) as (ts & Hts & Hrange).
  { eapply Forall_impl; [exact Hs|]. intros c Hc. by apply encode_char_encodable. }
  rewrite Hts. pose proof (traverse_length _ _ _ Hts) as Hlen.
  rewrite chars_length in Hlen. destruct with_eos.
  - exists (ts ++ [2%nat]). split; [reflexivity|]. split.
    + rewrite length_app. simpl. lia.
    + apply Forall_app. split; [done|]. constructor; [lia|constructor].
  - exists ts. split; [done|]. split; [lia|done].
Qed.

(** X6.  With the reserved tokens of [preprocess.py], a sentence of capitals
    and spaces is always encoded, into ids from 2 to 29: never 0 ([<PAD>])
    and never 1 ([<SOS>]). *)
Theorem encode_chars_upper_case self sentence with_eos :
  text_encoder_init "char" special_tokens = Ok self ->
  Forall encodable (chars sentence) ->
  exists tokens,
    text_encoder_encode self sentence with_eos = Ok tokens
    /\ Forall (fun i => (2 <= i < 30)%nat) tokens.
Proof.
  intros Hinit Hs.
  destruct (encode_encodable_returns self sentence with_eos Hinit Hs)
    as (tokens & Henc & _ & Hrange).
  by exists tokens.
Qed.

(** X7.  With the reserved tokens of [preprocess.py], the first character of a
    sentence that is neither a capital nor a space makes the encoding raise a
    key error for that character. *)
Theorem encode_chars_key_error self sentence with_eos (pre post : list string) (c : string) :
  text_encoder_init "char" special_tokens = Ok self ->
  chars sentence = pre ++ c :: post ->
  Forall encodable pre ->
  ~ encodable c ->
  text_encoder_encode self sentence with_eos = Throws (KeyError c).
Proof.
  intros Hinit Hsplit Hpre Hc. rewrite (encode_chars_char_unit _ _ _ _ Hinit), Hsplit.
  destruct (chars_single sentence c) as [a ->].
  { rewrite Hsplit. apply elem_of_app. right. by left. }
  rewrite (traverse_Throws _ pre post _ (KeyError (String a EmptyString))); [done| |].
  - eapply Forall_impl; [exact Hpre|]. intros x Hx.
    destruct (encode_char_encodable x Hx) as (i & Hi & _). by exists i.
  - by apply encode_char_not_encodable.
Qed.

(** ** [process_texts] *)

Lemma chars_translate_delete (deleted s : string) :
  chars (translate_delete deleted s)
  = List.filter (fun c => negb (bool_decide (c ∈ chars deleted))) (chars s).
Proof.
  induction s as [|a s IH]; [done|]. cbn [translate_delete chars List.filter].
  destruct (bool_decide _); cbn [negb chars]; [done|by rewrite IH].
Qed.

Lemma kept_chars_encodable sentence :
  Forall transcript_char (chars sentence) -> Forall encodable (kept_chars sentence).
Proof.
  unfold kept_chars. generalize (chars sentence).
  induction 1 as [|c cs Hc _ IH]; cbn [List.filter]; [constructor|].
  destruct (bool_decide (c ∈ chars punctuation)) eqn:Hp; cbn [negb]; [done|].
  constructor; [|done]. destruct Hc as [?|Hc]; [done|].
  by apply bool_decide_eq_false_1 in Hp.
Qed.

Lemma process_texts_loop_transcripts self texts :
  text_encoder_init "char" special_tokens = Ok self ->
  Forall (fun sentence => Forall transcript_char (chars sentence)) texts ->
  forall tokens tokenlen,
    exists tokens' tokenlen',
      process_texts_loop self texts tokens tokenlen
        = Ok (tokens ++ tokens', tokenlen ++ tokenlen')
      /\ tokenlen' = map length tokens'
      /\ Forall2 (fun ts sentence =>
                    length ts = S (length (kept_chars sentence))
                    /\ Forall (fun i => (2 <= i < 30)%nat) ts) tokens' texts.
Proof.
  intros Hinit. induction 1 as [|sentence texts Hs _ IH]; intros tokens tokenlen.
  - exists [], []. rewrite !app_nil_r. by repeat split.
  - simpl.
    destruct (encode_encodable_returns self (translate_delete punctuation sentence) true Hinit)
      as (ts & Hts & Hl & Hrange).
    { rewrite chars_translate_delete. by apply kept_chars_encodable. }
    rewrite Hts. simpl. rewrite last_snoc. simpl.
    destruct (IH (tokens ++ [ts]) (tokenlen ++ [length ts]))
      as (tokens' & tokenlen' & Hloop & Hlen & Hall).
    exists (ts :: tokens'), (length ts :: tokenlen').
    rewrite Hloop, <- !app_assoc. split; [done|]. split; [simpl; by rewrite Hlen|].
    constructor; [|done]. split; [|done].
    rewrite Hl, <- chars_length, chars_translate_delete. unfold kept_chars. lia.
Qed.

(** X8.  On transcripts made of capitals, spaces and punctuation
    [process_texts] succeeds: each sentence gives one id for each character
    that is not punctuation, and [<EOS>]; the ids lie from 2 to 29; [tokenlen]
    holds the lengths cast to int32, which are the lengths themselves below
    [2^31]. *)
Theorem process_texts_transcripts self texts :
  text_encoder_init "char" special_tokens = Ok self ->
  Forall (fun sentence => Forall transcript_char (chars sentence)) texts ->
  exists tokens tokenlen,
    process_texts texts self = Ok (tokens, tokenlen)
    /\ Forall2 (fun ts sentence =>
                  length ts = S (length (kept_chars sentence))
                  /\ Forall (fun i => (2 <= i < 30)%nat) ts) tokens texts
    /\ Forall2 (fun n ts => n = astype_int32 (Z.of_nat (length ts))) tokenlen tokens
    /\ (Forall (fun ts => Z.of_nat (length ts) < 2 ^ 31) tokens ->
        tokenlen = map (fun ts => Z.of_nat (length ts)) tokens).
Proof.
  intros Hinit Htexts.
  destruct (process_texts_loop_transcripts self texts Hinit Htexts [] [])
    as (tokens & tokenlen & Hloop & -> & Hall).
  unfold process_texts. rewrite Hloop. simpl.
  exists tokens, (map (fun n => astype_int32 (Z.of_nat n)) (map length tokens)).
  split; [done|]. split; [done|]. split.
  - clear. induction tokens as [|ts tokens IH]; simpl; constructor; done.
  - clear. induction 1 as [|ts tokens Hts _ IH]; simpl; [done|].
    rewrite IH. f_equal. unfold astype_int32.
    rewrite Z.mod_small by lia. lia.
Qed.

(** ** Cutting a list into parts *)

Lemma concat_slices {A : Type} (l : list A) (n k : nat) :
  concat (map (fun i => slice l (i * n) ((i + 1) * n)) (seq 0 k)) = take (k * n) l.
Proof.
  induction k as [|k IH]; [done|].
  rewrite seq_S, map_app, concat_app, IH. simpl. rewrite app_nil_r. unfold slice.
  replace ((k + 1) * n - k * n)%nat with n by lia.
  rewrite take_take_drop. f_equal. lia.
Qed.

Lemma parts_cover (len k : nat) : (0 < k)%nat -> (len <= k * (len / k + 1))%nat.
Proof.
  intros Hk. pose proof (Nat.div_mod_eq len k) as Hdiv.
  pose proof (Nat.mod_upper_bound len k) as Hmod. nia.
Qed.

Lemma parts_nonempty (len k i : nat) :
  (k * k <= len)%nat -> (i < k)%nat -> (i * (len / k + 1) < len)%nat.
Proof.
  intros Hlen Hi. pose proof (Nat.div_mod_eq len k) as Hdiv.
  pose proof (Nat.mod_upper_bound len k) as Hmod.
  assert (k <= len / k)%nat by (apply Nat.div_le_lower_bound; lia).
  nia.
Qed.

Lemma string_app_length (s t : string) :
  String.length (s +:+ t) = (String.length s + String.length t)%nat.
Proof. induction s as [|a s IH]; simpl; [done|by rewrite IH]. Qed.

Lemma string_app_inj_r (s1 s2 t : string) : s1 +:+ t = s2 +:+ t -> s1 = s2.
Proof.
  revert s2. induction s1 as [|a s1 IH]; intros [|b s2] H; try done.
  - apply (f_equal String.length) in H.
    rewrite (string_app_length "" t), (string_app_length (String b s2) t) in H.
    simpl in H. lia.
  - apply (f_equal String.length) in H.
    rewrite (string_app_length "" t), (string_app_length (String a s1) t) in H.
    simpl in H. lia.
  - change (String a (s1 +:+ t) = String b (s2 +:+ t)) in H.
    injection H as -> H. f_equal. by apply IH.
Qed.

Section FeatureProperties.

Context {L : AudioLib}.

Lemma part_files_distinct (pre post : string) (i j : nat) :
  pre +:+ pretty i +:+ post = pre +:+ pretty j +:+ post -> i = j.
Proof.
  intros H. apply (inj (String.app pre)) in H.
  apply string_app_inj_r in H. by apply (inj pretty) in H.
Qed.

(** X13.  [save_ted_feats] loses nothing: the parts it dumps, in order, make up
    [feats] again; it writes [k] files above the threshold and one below, no
    two under the same name, and no part is empty once there are [k * k]
    features. *)
Theorem save_ted_feats_keeps_all args feats cat k :
  (0 < k)%nat ->
  exists events,
    save_ted_feats args feats cat k = Ok events
    /\ concat (dumped events) = feats
    /\ length events = (if Z.of_nat (length feats) >? _SAMPLE_THRESHOLD then k else 1%nat)
    /\ NoDup (map event_file events)
    /\ ((k * k <= length feats)%nat -> Forall (fun part => part ≠ []) (dumped events)).
Proof.
  intros Hk. unfold save_ted_feats.
  destruct (Z.of_nat (length feats) >? _SAMPLE_THRESHOLD).
  - destruct k as [|k']; [lia|]. set (k := S k') in *.
    set (n := (length feats / k + 1)%nat).
    eexists. split; [reflexivity|].
    assert (Hdumped : forall ks,
              dumped (map (fun i => Dump (feat_dir args +:+ "/" +:+ cat +:+ "_feats_"
                                          +:+ pretty i +:+ ".pkl")
                                         (slice feats (i * n) ((i + 1) * n))) ks)
              = map (fun i => slice feats (i * n) ((i + 1) * n)) ks).
    { intros ks. unfold dumped. induction ks as [|i ks IH]; [done|].
      simpl. f_equal. exact IH. }
    rewrite Hdumped. split; [|split; [|split]].
    + rewrite concat_slices. apply take_ge. unfold n. by apply parts_cover.
    + by rewrite length_map, length_seq.
    + rewrite map_map. simpl.
      change (NoDup ((fun i => feat_dir args +:+ "/" +:+ cat +:+ "_feats_"
                               +:+ pretty i +:+ ".pkl") <$> seq 0 k)).
      apply NoDup_fmap_2_strong; [|apply NoDup_seq].
      intros i j _ _ H.
      do 3 apply (inj (String.app _)) in H.
      by apply (part_files_distinct "_feats_" ".pkl").
    + intros Hlen. apply Forall_forall. intros part Hin.
      change (part ∈ (fun i => slice feats (i * n) ((i + 1) * n)) <$> seq 0 k) in Hin.
      apply list_elem_of_fmap in Hin as (i & -> & Hi). apply elem_of_seq in Hi.
      pose proof (parts_nonempty (length feats) k i Hlen ltac:(lia)) as Hlt.
      fold n in Hlt. unfold slice. intros Hnil.
      apply (f_equal length) in Hnil. rewrite length_take, length_drop in Hnil.
      simpl in Hnil. lia.
  - eexists. split; [reflexivity|]. unfold dumped. simpl. rewrite app_nil_r.
    split; [done|]. split; [done|]. split; [|intros Hlen].
    + apply NoDup_singleton.
    + constructor; [|constructor]. intros ->. simpl in Hlen. nia.
Qed.

(** ** [process_audios] *)

Lemma traverse_app {A B : Type} (f : A -> outcome B) (l1 l2 : list A) :
  traverse f (l1 ++ l2)
  = (b1 ← traverse f l1; b2 ← traverse f l2; Ok (b1 ++ b2)).
Proof.
  induction l1 as [|a l1 IH]; simpl.
  - by destruct (traverse f l2).
  - destruct (f a) as [b|e]; [|done]. simpl. rewrite IH.
    destruct (traverse f l1) as [b1|e]; [|done]. simpl.
    by destruct (traverse f l2).
Qed.

Lemma traverse_concat {A B : Type} (f : A -> outcome B) (ls : list (list A)) (bs : list B) :
  traverse f (concat ls) = Ok bs ->
  exists bss, Forall2 (fun l b => traverse f l = Ok b) ls bss /\ concat bss = bs.
Proof.
  revert bs. induction ls as [|l ls IH]; simpl; intros bs H.
  - injection H as <-. by exists [].
  - rewrite traverse_app in H.
    destruct (traverse f l) as [b1|e] eqn:H1; [|done]. simpl in H.
    destruct (traverse f (concat ls)) as [b2|e] eqn:H2; [|done]. simpl in H.
    injection H as <-. destruct (IH b2 eq_refl) as (bss & Hall & <-).
    exists (b1 :: bss). split; [by constructor|done].
Qed.

Lemma append_features_supported args p feats :
  supported args ->
  append_features args p feats = (feat ← extract_features args p; Ok (feats ++ [feat])).
Proof.
  intros Hs. unfold extract_features, append_features.
  destruct (librosa_load p) as [[audio fs]|e]; [|done]. simpl.
  destruct (decide (feat_type args = "mfcc")).
  - destruct (decide (feat_dim args = 39)); [|done].
    destruct (reshape_rows _ _) as [feat|?]; [|done]. simpl. done.
  - destruct (decide (feat_type args = "fbank")); [|by destruct Hs].
    destruct (reshape_rows _ _) as [feat|?]; [|done]. simpl. done.
Qed.

Lemma process_audios_loop_supported args audio_path :
  supported args ->
  forall feats featlen,
    process_audios_loop args audio_path feats featlen
    = (fs ← traverse (extract_features args) audio_path;
       Ok (feats ++ fs, featlen ++ map length fs)).
Proof.
  intros Hs. induction audio_path as [|p audio_path IH]; intros feats featlen; simpl.
  - by rewrite !app_nil_r.
  - rewrite append_features_supported by done.
    destruct (extract_features args p) as [feat|e]; [|done]. simpl.
    rewrite last_snoc. simpl. rewrite IH.
    destruct (traverse _ audio_path) as [fs|e]; [|done]. simpl.
    by rewrite <- !app_assoc.
Qed.

Lemma process_audios_traverse args audio_path :
  process_audios audio_path args
  = (fs ← traverse (extract_features args) audio_path; Ok (fs, map length fs)).
Proof.
  unfold process_audios.
  destruct (decide (feat_type args = "mfcc")) as [Hm|Hm];
    [by rewrite process_audios_loop_supported by (by left)|].
  destruct (decide (feat_type args = "fbank")) as [Hf|Hf];
    [by rewrite process_audios_loop_supported by (by right)|].
  destruct audio_path as [|p audio_path]; [done|]. simpl.
  unfold extract_features, append_features.
  destruct (librosa_load p) as [[audio fs]|e]; [|done]. simpl.
  rewrite !decide_False by done. done.
Qed.

Lemma reshape_rows_width x d feat :
  reshape_rows x d = Ok feat ->
  0 < d /\ Forall (fun row => Z.of_nat (length row) = d) feat
  /\ Z.of_nat (length feat) * d = Z.of_nat (length (concat x)).
Proof.
  unfold reshape_rows. destruct (Z.leb_spec d 0) as [|Hd]; [done|].
  destruct (Z.eqb_spec (Z.of_nat (length (concat x)) mod d) 0) as [Hmod|]; [|done].
  simpl. intros H. injection H as <-. split; [done|].
  assert (Hdiv : (length (concat x) = length (concat x) / Z.to_nat d * Z.to_nat d)%nat).
  { apply Z.mod_divide in Hmod as [q Hq]; [|lia].
    assert (Hq' : length (concat x) = (Z.to_nat q * Z.to_nat d)%nat) by nia.
    rewrite Hq' at 2. rewrite Nat.div_mul by lia. done. }
  split.
  - apply Forall_forall. intros row Hin.
    change (row ∈ (fun i => slice (concat x) (i * Z.to_nat d) ((i + 1) * Z.to_nat d))
                  <$> seq 0 (length (concat x) / Z.to_nat d)) in Hin.
    apply list_elem_of_fmap in Hin as (i & -> & Hi). apply elem_of_seq in Hi.
    unfold slice. rewrite length_take, length_drop. nia.
  - rewrite length_map, length_seq. nia.
Qed.

Lemma extract_features_Ok args p feat :
  extract_features args p = Ok feat ->
  supported args /\ (feat_type args = "mfcc" -> feat_dim args = 39)
  /\ Forall (fun row => Z.of_nat (length row) = feat_dim args) feat.
Proof.
  unfold extract_features, append_features.
  destruct (librosa_load p) as [[audio fs]|?]; [|done]. simpl.
  destruct (decide (feat_type args = "mfcc")) as [Hm|Hm].
  - destruct (decide (feat_dim args = 39)); [|done].
    destruct (reshape_rows _ _) as [f|?] eqn:Hr; [|done]. simpl.
    intros H. injection H as <-. apply reshape_rows_width in Hr as (_ & Hr & _).
    split; [by left|]. by split.
  - destruct (decide (feat_type args = "fbank")) as [Hf|Hf]; [|done].
    destruct (reshape_rows _ _) as [f|?] eqn:Hr; [|done]. simpl.
    intros H. injection H as <-. apply reshape_rows_width in Hr as (_ & Hr & _).
    split; [by right|]. by split.
Qed.

(** X11.  When [process_audios] returns, it has one feature matrix and one
    length for each path, each length is the number of rows of its matrix,
    and every row has [feat_dim] values; for a list of paths that is not
    empty this needs one of the two feature types, and [feat_dim = 39] for
    [mfcc]. *)
Theorem process_audios_aligned args audio_path feats featlen :
  process_audios audio_path args = Ok (feats, featlen) ->
  length feats = length audio_path
  /\ featlen = map length feats
  /\ Forall (Forall (fun row => Z.of_nat (length row) = feat_dim args)) feats
  /\ (audio_path ≠ [] ->
      supported args /\ (feat_type args = "mfcc" -> feat_dim args = 39)).
Proof.
  rewrite process_audios_traverse.
  destruct (traverse _ audio_path) as [fs|?] eqn:Hfs; [|done]. simpl.
  intros H. injection H as <- <-.
  split; [by eapply traverse_length|]. split; [done|].
  apply traverse_Forall2 in Hfs. split.
  - induction Hfs as [|p feat ps fs Hp _ IH]; constructor; [|done].
    by apply extract_features_Ok in Hp as (_ & _ & ?).
  - intros Hne. destruct Hfs as [|p feat ps fs Hp _]; [done|].
    by apply extract_features_Ok in Hp as (? & ? & _).
Qed.

(** X12.  For a feature type other than [mfcc] and [fbank], [process_audios]
    raises an index error on the first file it loads, since nothing was
    appended to [feats]; on no file at all it returns two empty lists. *)
Theorem process_audios_unknown_type args p rest loaded :
  feat_type args ≠ "mfcc" -> feat_type args ≠ "fbank" ->
  librosa_load p = Ok loaded ->
  process_audios (p :: rest) args = Throws ListIndexError
  /\ process_audios [] args = Ok ([], []).
Proof.
  intros Hm Hf Hload. split; [|done].
  unfold process_audios. simpl. unfold append_features. rewrite Hload.
  destruct loaded as [audio fs]. simpl. by rewrite !decide_False by done.
Qed.

(** ** [process_libri_feats] *)

Lemma process_libri_parts_whole args audio_path cat n (parts : list nat) fss :
  Forall2 (fun i fs => traverse (extract_features args)
                         (slice audio_path (i * n) ((i + 1) * n)) = Ok fs) parts fss ->
  forall events featlen,
    exists events',
      process_libri_parts args audio_path cat n parts events featlen
      = (events ++ events', Ok (featlen ++ map length (concat fss)))
      /\ dumped events' = fss
      /\ length events' = length parts.
Proof.
  induction 1 as [|i fs parts fss Hi _ IH]; intros events featlen; simpl.
  - exists []. by rewrite !app_nil_r.
  - rewrite process_audios_traverse, Hi. simpl.
    destruct (IH (events ++ [Dump (feat_dir args +:+ "/" +:+ cat +:+ "_feats_"
                                   +:+ pretty i +:+ ".pkl") fs])
                 (featlen ++ map length fs)) as (events' & Hloop & Hd & Hl).
    eexists (_ :: events'). rewrite Hloop, <- !app_assoc, map_app. simpl.
    split; [done|]. split; [|by rewrite Hl]. unfold dumped in *. simpl. by rewrite Hd.
Qed.

(** X14.  Cutting the paths into parts changes nothing of the result: when
    [process_audios] succeeds on all paths at once, [process_libri_feats]
    dumps parts that make up the same features, [k] files above the threshold
    and one below, and then saves the same lengths. *)
Theorem process_libri_feats_whole args audio_path cat k feats featlen :
  (0 < k)%nat ->
  process_audios audio_path args = Ok (feats, featlen) ->
  exists events,
    process_libri_feats args audio_path cat k
    = (events ++ [Save (feat_dir args +:+ "/" +:+ cat +:+ "_featlen.npy") featlen], Ok ())
    /\ concat (dumped events) = feats
    /\ length events
       = (if Z.of_nat (length audio_path) >? _SAMPLE_THRESHOLD then k else 1%nat).
Proof.
  intros Hk Hwhole. unfold process_libri_feats.
  destruct (Z.of_nat (length audio_path) >? _SAMPLE_THRESHOLD).
  - destruct k as [|k']; [lia|]. set (k := S k') in *.
    set (n := (length audio_path / k + 1)%nat).
    rewrite process_audios_traverse in Hwhole.
    destruct (traverse _ audio_path) as [fs|?] eqn:Hfs; [|done]. simpl in Hwhole.
    injection Hwhole as <- <-.
    assert (Hcover : concat (map (fun i => slice audio_path (i * n) ((i + 1) * n)) (seq 0 k))
                     = audio_path).
    { rewrite concat_slices. apply take_ge. unfold n. by apply parts_cover. }
    rewrite <- Hcover in Hfs. apply traverse_concat in Hfs as (fss & Hall & <-).
    assert (Hparts : Forall2 (fun i fs => traverse (extract_features args)
                                (slice audio_path (i * n) ((i + 1) * n)) = Ok fs)
                       (seq 0 k) fss).
    { clear Hcover. revert Hall. generalize (seq 0 k). intros parts. revert fss.
      induction parts as [|i parts IH]; intros fss Hall; inversion Hall; subst;
        constructor; [done|by apply IH]. }
    destruct (process_libri_parts_whole args audio_path cat n (seq 0 k) fss Hparts [] [])
      as (events & Hloop & Hd & Hl).
    rewrite Hloop. simpl. exists events. rewrite Hd, Hl, length_seq. done.
  - rewrite Hwhole. eexists [_]. split; [reflexivity|].
    unfold dumped. simpl. by rewrite app_nil_r.
Qed.

End FeatureProperties.

(** ** Lines of a transcript *)

Lemma first_field_app (id rest : string) :
  " " ∉ chars id -> first_field (id +:+ " " +:+ rest) = id.
Proof.
  induction id as [|a id IH]; intros Hid; [done|].
  change (String a id +:+ " " +:+ rest) with (String a (id +:+ " " +:+ rest)).
  cbn [first_field]. simpl in Hid. apply not_elem_of_cons in Hid as [Ha Hid].
  rewrite decide_False by done. by rewrite IH.
Qed.

Lemma string_drop_app (s t : string) : string_drop (String.length s) (s +:+ t) = t.
Proof. induction s as [|a s IH]; [done|]. simpl. exact IH. Qed.

Lemma string_take_app (s t : string) : string_take (String.length s) (s +:+ t) = s.
Proof.
  induction s as [|a s IH]; [by destruct t|].
  change (String a s +:+ t) with (String a (s +:+ t)). simpl. by rewrite IH.
Qed.

Lemma chars_translate_delete_not_in (deleted s c : string) :
  c ∈ chars deleted -> c ∉ chars (translate_delete deleted s).
Proof.
  intros Hc. rewrite chars_translate_delete. intros Hin.
  apply list_elem_of_In, filter_In in Hin as [_ Hkeep].
  by rewrite bool_decide_eq_true_2 in Hkeep.
Qed.

Lemma string_app_assoc (s t u : string) : (s +:+ t) +:+ u = s +:+ t +:+ u.
Proof.
  induction s as [|a s IH]; [done|].
  change (String a ((s +:+ t) +:+ u) = String a (s +:+ t +:+ u)). by rewrite IH.
Qed.

Lemma slice_after_id (id rest : string) :
  slice_to_last (id +:+ " " +:+ rest) (String.length id + 1)
  = string_take (String.length rest - 1) rest.
Proof.
  unfold slice_to_last.
  replace (String.length id + 1)%nat with (String.length (id +:+ " "))
    by (rewrite string_app_length; done).
  rewrite <- (string_app_assoc id " " rest).
  rewrite string_drop_app, !string_app_length. f_equal. simpl. lia.
Qed.

(** X9.  A transcript line [id body] ending in a newline gives the path
    [path/id.flac] and the body without apostrophes; without the final
    newline the last character of the body is lost too. *)
Theorem parse_line_fields (path id body : string) :
  " " ∉ chars id ->
  parse_line path (id +:+ " " +:+ body +:+ newline)
    = (path +:+ "/" +:+ id +:+ ".flac", translate_delete "'" body)
  /\ parse_line path (id +:+ " " +:+ body)
     = (path +:+ "/" +:+ id +:+ ".flac",
        translate_delete "'" (string_take (String.length body - 1) body))
  /\ "'" ∉ chars (parse_line path (id +:+ " " +:+ body +:+ newline)).2.
Proof.
  intros Hid. unfold parse_line.
  rewrite !first_field_app by done. rewrite !slice_after_id.
  rewrite string_app_length. simpl String.length.
  replace (String.length body + 1 - 1)%nat with (String.length body) by lia.
  rewrite string_take_app. split; [done|]. split; [done|].
  cbn [snd]. apply chars_translate_delete_not_in. by left.
Qed.

Section TranscriptProperties.

Context {F : FileSystem}.

Lemma parse_line_no_quote (path line : string) : "'" ∉ chars (parse_line path line).2.
Proof. unfold parse_line. cbn [snd]. apply chars_translate_delete_not_in. by left. Qed.

Lemma data_preparation_loop_aligned folders :
  forall texts audio_path texts' audio_path',
    data_preparation_loop folders texts audio_path = Ok (texts', audio_path') ->
    exists new_texts new_paths,
      texts' = texts ++ new_texts /\ audio_path' = audio_path ++ new_paths
      /\ length new_texts = length new_paths
      /\ Forall (fun text => "'" ∉ chars text) new_texts
      /\ Forall (fun path => glob (path +:+ "/*txt") ≠ []) folders.
Proof.
  induction folders as [|path folders IH]; intros texts audio_path texts' audio_path' H.
  - cbn [data_preparation_loop] in H. injection H as <- <-.
    exists [], []. rewrite !app_nil_r. repeat split; constructor.
  - cbn [data_preparation_loop] in H.
    destruct (glob (path +:+ "/*txt")) as [|text_path others] eqn:Hglob; [discriminate|].
    cbn [mbind outcome_bind] in H.
    apply IH in H as (nt & np & -> & -> & Hlen & Hq & Hall).
    exists (map snd (map (parse_line path) (readlines text_path)) ++ nt),
           (map fst (map (parse_line path) (readlines text_path)) ++ np).
    rewrite <- !app_assoc.
    split; [reflexivity|]. split; [reflexivity|]. split; [|split].
    + rewrite !length_app, !length_map. lia.
    + apply Forall_app. split; [|exact Hq].
      generalize (readlines text_path). intros lines.
      induction lines as [|line lines IHl]; [constructor|].
      constructor; [apply parse_line_no_quote|exact IHl].
    + constructor; [|exact Hall]. rewrite Hglob. discriminate.
Qed.

(** X10.  When [data_preparation] returns, it has one text for each audio path,
    no text holds an apostrophe, and every folder it visited had a transcript
    file: a folder without one raises an index error. *)
Theorem data_preparation_aligned libri_path texts audio_path :
  data_preparation libri_path = Ok (texts, audio_path) ->
  length texts = length audio_path
  /\ Forall (fun text => "'" ∉ chars text) texts
  /\ Forall (fun path => glob (path +:+ "/*txt") ≠ []) (glob (libri_path +:+ "/**/**")).
Proof.
  unfold data_preparation. intros H.
  apply data_preparation_loop_aligned in H as (nt & np & Ht & Hp & Hlen & Hq & Hall).
  rewrite app_nil_l in Ht, Hp. subst. by repeat split.
Qed.

End TranscriptProperties.

(** * More properties of the model *)

(** ** More on the loop *)

Lemma while_loop_ext {St : Type} (cond : St -> bool) (body1 body2 : St -> run St) :
  (forall s, body1 s = body2 s) ->
  forall fuel s, while_loop cond body1 s fuel = while_loop cond body2 s fuel.
Proof.
  intros Hbody. induction fuel as [|fuel IH]; intros s; simpl; [done|].
  destruct (cond s); [|done]. rewrite Hbody.
  destruct (body2 s) as [s'| |]; simpl; [apply IH|done|done].
Qed.

Section MoreProperties.

Context {K : Backend}.

(** X15.  Whenever the loop of the speller returns, its counter equals
    [max(0, dec_steps)], the decoder state still has the structure declared to
    [tf.while_loop], and the accumulator holds the placeholder and one slice
    for each step. *)
Theorem Speller_loop_exit args char2id enc_out enc_len dec_steps mode rng fuel
    t state prev_char output rng' :
  Speller_loop (Speller_init args char2id) enc_out enc_len dec_steps mode rng fuel
    = Returns ((t, state, prev_char, output), rng') ->
  t = Z.max 0 dec_steps
  /\ same_structure (shape_state args) state = true
  /\ length output = S (Z.to_nat dec_steps).
Proof.
  intros H. apply Speller_loop_Returns in H as (Ht & Hok & Hlen).
  split; [done|]. split; [by apply state_ok_same_structure|done].
Qed.

(** ** Teacher forcing switched off *)

Lemma next_input_training_no_forcing self teacher1 teacher2 t cur_char rng :
  (teacher_forcing_rate (Speller_args self) <= (random_uniform rng).1)%Q ->
  next_input_training self teacher1 t cur_char rng
  = next_input_training self teacher2 t cur_char rng.
Proof.
  intros Hu. unfold next_input_training.
  destruct (random_uniform rng) as [u rng1]. simpl in Hu.
  unfold Qgtb. apply Qle_bool_iff in Hu. by rewrite Hu.
Qed.

(** X16.  With a teacher forcing rate that is not positive and uniform draws
    that are not negative, the teacher tokens are never read: training-mode
    decoding gives the same outcome for any two teacher tensors. *)
Theorem Speller_ignores_teacher_without_forcing self enc_out enc_len dec_steps
    teacher1 teacher2 rng fuel :
  (teacher_forcing_rate (Speller_args self) <= 0)%Q ->
  (forall r, 0 <= (random_uniform r).1)%Q ->
  Speller_call self enc_out enc_len dec_steps (Training teacher1) rng fuel
  = Speller_call self enc_out enc_len dec_steps (Training teacher2) rng fuel.
Proof.
  intros Hrate Hdraw. unfold Speller_call, Speller_loop.
  destruct (same_structure _ _); [|done].
  destruct (Speller_entry self enc_out) as [init| |]; try done. cbn [mbind run_bind].
  rewrite (while_loop_ext _ (iteration self enc_out enc_len (Training teacher1))
             (iteration self enc_out enc_len (Training teacher2))); [done|].
  intros [[[[t st] pc] out] r]. unfold iteration. cbn [is_training].
  destruct (decode _ _ _ _ _ _) as [[[c st'] al]| |]; try done. cbn [mbind run_bind].
  rewrite (next_input_training_no_forcing self teacher1 teacher2); [done|].
  eapply Qle_trans; [exact Hrate|apply Hdraw].
Qed.

(** ** [train] *)


(** ** The width of the summary *)

Lemma zip_with_app_replicate {A : Type} (n : nat) (r1 r2 : list A) :
  zip_with app (replicate n r1) (replicate n r2) = replicate n (r1 ++ r2).
Proof. induction n as [|n IH]; simpl; [done|by rewrite IH]. Qed.

Lemma concat_last_zeros (layers batch units : nat) :
  concat_last (replicate (S layers) (zeros batch units))
  = zeros batch (S layers * units).
Proof.
  induction layers as [|layers IH].
  - simpl. by rewrite Nat.add_0_r.
  - change (replicate (S (S layers)) (zeros batch units))
      with (zeros batch units :: replicate (S layers) (zeros batch units)).
    change (concat_last (?m :: replicate (S layers) ?z))
      with (zip_with app m (concat_last (replicate (S layers) z))).
    rewrite IH. unfold zeros. rewrite zip_with_app_replicate.
    f_equal. rewrite <- replicate_add. f_equal.
Qed.

(** X18.  At loop entry the summary of the decoder state has one row of zeros
    for each utterance, of width [dec_units * num_dec_layers]: the [s_dim]
    that [decode] passes to attention. *)
Theorem entry_summary_width args char2id (batch : nat) :
  1 <= num_dec_layers args -> 0 <= dec_units args ->
  _get_hidden_state (Speller_init args char2id)
    (zero_state (_build_decoder_cell args) batch)
  = Returns (Rank2 (zeros batch (Z.to_nat (dec_units args * num_dec_layers args)))).
Proof.
  intros HL Hu. unfold _get_hidden_state, _build_decoder_cell.
  cbn [Speller_args Speller_init].
  replace (0 <? num_dec_layers args) with true by (symmetry; apply Z.ltb_lt; lia).
  destruct (Z.ltb_spec 1 (num_dec_layers args)) as [Hm|Hm]; simpl.
  - destruct (Z.to_nat (num_dec_layers args)) as [|layers] eqn:Hl; [lia|].
    change (map ?f (replicate ?n ?x)) with (f <$> replicate n x).
    rewrite fmap_replicate.
    assert (Hc := concat_last_zeros layers batch (Z.to_nat (dec_units args))).
    destruct (replicate (S layers) _) as [|m ms] eqn:Hr; [done|].
    rewrite Hc. do 3 f_equal. nia.
  - do 3 f_equal. nia.
Qed.

End MoreProperties.

Section LossProperties.

Context {K : Backend}.

(** ** Logits under padding *)

Lemma non_pad_row_agree (f : vector -> vector -> Q) (slice slice' : matrix)
    (labels : matrix) (tokens : ids) :
  Forall3 (fun row row' token => token ≠ 0 -> row = row') slice slice' tokens ->
  length labels = length tokens ->
  non_pad_row (zip_with f slice labels) tokens
  = non_pad_row (zip_with f slice' labels) tokens.
Proof.
  intros H. revert labels.
  induction H as [|row row' token slice slice' tokens Hrow _ IH]; intros [|lab labels] Hl;
    try done.
  unfold non_pad_row in *. simpl. simpl in Hl.
  destruct (Z.eqb_spec token 0) as [->|Hne]; simpl.
  - apply IH. lia.
  - rewrite (Hrow Hne). f_equal. apply IH. lia.
Qed.

Lemma non_pad_terms_agree (logits logits' : list matrix) (y : list ids) (V : Z) :
  agree_off_padding logits logits' y ->
  non_pad_terms (zip_with (zip_with softmax_cross_entropy_with_logits) logits
                   (tf_one_hot y V)) y
  = non_pad_terms (zip_with (zip_with softmax_cross_entropy_with_logits) logits'
                     (tf_one_hot y V)) y.
Proof.
  unfold agree_off_padding, non_pad_terms, tf_one_hot.
  induction 1 as [|slice slice' tokens logits logits' y Hs _ IH]; [done|].
  simpl. rewrite IH. f_equal.
  apply non_pad_row_agree; [done|]. by rewrite length_map.
Qed.

Lemma agree_off_padding_shape logits logits' y :
  agree_off_padding logits logits' y -> same_shape logits y /\ same_shape logits' y.
Proof.
  unfold agree_off_padding, same_shape.
  induction 1 as [|slice slice' tokens logits logits' y Hs _ [IH1 IH2]]; [by split|].
  split; constructor; try done.
  - apply Forall3_length_lm in Hs as Hlm. apply Forall3_length_lr in Hs. lia.
  - apply Forall3_length_lm in Hs as Hlm. apply Forall3_length_lr in Hs. lia.
Qed.

(** X20.  The loss does not depend on the logits at PAD positions, nor on
    [charlen]: two batches of logits with one entry for each class that
    agree wherever the token is not 0 give equal losses. *)
Theorem loss_ignores_padded_logits self logits logits' y charlen charlen' :
  agree_off_padding logits logits' y ->
  class_width logits (vocab_size (LAS_args self)) ->
  class_width logits' (vocab_size (LAS_args self)) ->
  exists loss loss',
    _get_loss self logits y charlen = Returns loss
    /\ _get_loss self logits' y charlen' = Returns loss'
    /\ (loss == loss')%Q.
Proof.
  intros Hagree Hwidth Hwidth'.
  destruct (agree_off_padding_shape _ _ _ Hagree) as [Hs Hs'].
  eexists _, _.
  split; [exact (proj2 (get_loss_value self logits y charlen Hs Hwidth))|].
  split; [exact (proj2 (get_loss_value self logits' y charlen' Hs' Hwidth'))|].
  rewrite !masked_sum.
  by rewrite (non_pad_terms_agree logits logits' y _ Hagree).
Qed.

End LossProperties.

(** ** Concrete runs of the tokenizer and the preprocessing *)

#[local] Existing Instance Samples.audio_lib.
#[local] Existing Instance Samples.file_system.

Lemma lookup_dicts_round_trip_witness :
  (lookup_dicts special_tokens).1 !! "<SOS>" = Some 1%nat
  /\ (lookup_dicts special_tokens).2 !! 1%nat = Some "<SOS>".
Proof.
  assert (H : (lookup_dicts special_tokens).1 !! "<SOS>" = Some 1%nat)
    by (vm_compute; reflexivity).
  split; [exact H|].
  exact (proj1 (lookup_dicts_round_trip special_tokens "<SOS>" 1%nat H)).
Defined.

Lemma lookup_dicts_distinct_tokens_witness :
  NoDup (special_tokens ++ take 26 (chars ascii_uppercase))
  /\ size (lookup_dicts special_tokens).1 = size (lookup_dicts special_tokens).2.
Proof.
  assert (H : NoDup (special_tokens ++ take 26 (chars ascii_uppercase)))
    by (apply (bool_decide_unpack _); vm_compute; exact I).
  split; [exact H|].
  exact (proj2 (lookup_dicts_distinct_tokens special_tokens H)).
Defined.

Lemma encode_chars_round_trip_witness :
  text_encoder_init "char" special_tokens = Ok Samples.char_encoder
  /\ text_encoder_encode Samples.char_encoder "HE IS" true
     = Ok [11; 8; 3; 12; 22; 2]%nat
  /\ map (fun i => (lookup_dicts special_tokens).2 !! i) [11; 8; 3; 12; 22; 2]%nat
     = map Some (spelled "HE IS" true).
Proof.
  assert (Hinit : text_encoder_init "char" special_tokens = Ok Samples.char_encoder)
    by (vm_compute; reflexivity).
  assert (Henc : text_encoder_encode Samples.char_encoder "HE IS" true
                 = Ok [11; 8; 3; 12; 22; 2]%nat) by (vm_compute; reflexivity).
  split; [exact Hinit|]. split; [exact Henc|].
  exact (proj1 (proj2 (encode_chars_round_trip special_tokens Samples.char_encoder
                         "HE IS" true _ Hinit Henc))).
Defined.

Lemma encode_chars_upper_case_witness :
  text_encoder_init "char" special_tokens = Ok Samples.char_encoder
  /\ Forall encodable (chars "HE IS")
  /\ exists tokens,
       text_encoder_encode Samples.char_encoder "HE IS" true = Ok tokens
       /\ Forall (fun i => (2 <= i < 30)%nat) tokens.
Proof.
  assert (Hinit : text_encoder_init "char" special_tokens = Ok Samples.char_encoder)
    by (vm_compute; reflexivity).
  assert (Hs : Forall encodable (chars "HE IS")).
  { simpl. repeat constructor; unfold encodable;
      solve [by left | right; apply (bool_decide_unpack _); vm_compute; exact I]. }
  split; [exact Hinit|]. split; [exact Hs|].
  exact (encode_chars_upper_case Samples.char_encoder "HE IS" true Hinit Hs).
Defined.

Lemma encode_chars_key_error_witness :
  text_encoder_init "char" special_tokens = Ok Samples.char_encoder
  /\ chars "HE is" = ["H"; "E"; " "] ++ "i" :: ["s"]
  /\ Forall encodable ["H"; "E"; " "]
  /\ ~ encodable "i"
  /\ text_encoder_encode Samples.char_encoder "HE is" true = Throws (KeyError "i").
Proof.
  assert (Hinit : text_encoder_init "char" special_tokens = Ok Samples.char_encoder)
    by (vm_compute; reflexivity).
  assert (Hsplit : chars "HE is" = ["H"; "E"; " "] ++ "i" :: ["s"]) by reflexivity.
  assert (Hpre : Forall encodable ["H"; "E"; " "]).
  { repeat constructor; unfold encodable;
      solve [by left | right; apply (bool_decide_unpack _); vm_compute; exact I]. }
  assert (Hc : ~ encodable "i").
  { intros [Heq|Hin]; [discriminate|].
    revert Hin. apply (bool_decide_unpack _). vm_compute. exact I. }
  split; [exact Hinit|]. split; [exact Hsplit|]. split; [exact Hpre|]. split; [exact Hc|].
  exact (encode_chars_key_error Samples.char_encoder "HE is" true _ _ _ Hinit Hsplit Hpre Hc).
Defined.

Lemma process_texts_transcripts_witness :
  text_encoder_init "char" special_tokens = Ok Samples.char_encoder
  /\ Forall (fun sentence => Forall transcript_char (chars sentence)) ["HE'S"; "A B"]
  /\ process_texts ["HE'S"; "A B"] Samples.char_encoder
     = Ok ([[11; 8; 22; 2]; [4; 3; 5; 2]]%nat, [4; 4])
  /\ exists tokens tokenlen,
       process_texts ["HE'S"; "A B"] Samples.char_encoder = Ok (tokens, tokenlen)
       /\ Forall2 (fun n ts => n = astype_int32 (Z.of_nat (length ts))) tokenlen tokens.
Proof.
  assert (Hinit : text_encoder_init "char" special_tokens = Ok Samples.char_encoder)
    by (vm_compute; reflexivity).
  assert (Ht : Forall (fun sentence => Forall transcript_char (chars sentence))
                 ["HE'S"; "A B"]).
  { repeat constructor; unfold transcript_char, encodable;
      solve [ by left; left
            | left; right; apply (bool_decide_unpack _); vm_compute; exact I
            | right; apply (bool_decide_unpack _); vm_compute; exact I ]. }
  split; [exact Hinit|]. split; [exact Ht|]. split; [vm_compute; reflexivity|].
  destruct (process_texts_transcripts Samples.char_encoder ["HE'S"; "A B"] Hinit Ht)
    as (tokens & tokenlen & Hrun & _ & Hlen & _).
  exists tokens, tokenlen. split; [exact Hrun|exact Hlen].
Defined.

Lemma parse_line_fields_witness :
(" " ∉ chars "19-198-0001")
  /\ parse_line "libri/19/198" ("19-198-0001" +:+ " " +:+ "CATHERINE'S MOTHER" +:+ newline)
     = ("libri/19/198" +:+ "/" +:+ "19-198-0001" +:+ ".flac",
        translate_delete "'" "CATHERINE'S MOTHER").
Proof.
  assert (Hid : " " ∉ chars "19-198-0001")
    by (apply (bool_decide_unpack _); vm_compute; exact I).
  split; [exact Hid|].
  exact (proj1 (parse_line_fields "libri/19/198" "19-198-0001" "CATHERINE'S MOTHER" Hid)).
Defined.

Lemma data_preparation_aligned_witness :
  data_preparation "libri"
  = Ok (["NORTHANGER ABBEY"; "CATHERINES MOTHER"],
        ["libri/19/198/19-198-0000.flac"; "libri/19/198/19-198-0001.flac"])
  /\ length ["NORTHANGER ABBEY"; "CATHERINES MOTHER"]
     = length ["libri/19/198/19-198-0000.flac"; "libri/19/198/19-198-0001.flac"].
Proof.
  assert (H : data_preparation "libri"
              = Ok (["NORTHANGER ABBEY"; "CATHERINES MOTHER"],
                    ["libri/19/198/19-198-0000.flac"; "libri/19/198/19-198-0001.flac"]))
    by (vm_compute; reflexivity).
  split; [exact H|].
  exact (proj1 (data_preparation_aligned "libri" _ _ H)).
Defined.

Lemma process_audios_aligned_witness :
  exists feats featlen,
    process_audios ["a.flac"; "b.flac"] Samples.fbank_args = Ok (feats, featlen)
    /\ length feats = 2%nat
    /\ featlen = map length feats.
Proof.
  eexists _, _.
  assert (H : process_audios ["a.flac"; "b.flac"] Samples.fbank_args = Ok (_, _))
    by (vm_compute; reflexivity).
  split; [exact H|].
  destruct (process_audios_aligned Samples.fbank_args ["a.flac"; "b.flac"] _ _ H)
    as (Hlen & Hfeatlen & _).
  split; [exact Hlen|exact Hfeatlen].
Defined.

Lemma process_audios_unknown_type_witness :
  feat_type Samples.other_args ≠ "mfcc"
  /\ feat_type Samples.other_args ≠ "fbank"
  /\ librosa_load "a.flac" = Ok ([1; 2; 3]%Q, 16000%Q)
  /\ process_audios ["a.flac"; "b.flac"] Samples.other_args = Throws ListIndexError.
Proof.
  assert (Hm : feat_type Samples.other_args ≠ "mfcc") by discriminate.
  assert (Hf : feat_type Samples.other_args ≠ "fbank") by discriminate.
  assert (Hload : librosa_load "a.flac" = Ok ([1; 2; 3]%Q, 16000%Q)) by reflexivity.
  split; [exact Hm|]. split; [exact Hf|]. split; [exact Hload|].
  exact (proj1 (process_audios_unknown_type Samples.other_args "a.flac" ["b.flac"] _
                  Hm Hf Hload)).
Defined.

Lemma save_ted_feats_keeps_all_witness :
  (0 < 3)%nat
  /\ exists events,
       save_ted_feats Samples.fbank_args [[[1]]; [[2]]; [[3]]; [[4]]]%Q "dev" 3 = Ok events
       /\ concat (dumped events) = [[[1]]; [[2]]; [[3]]; [[4]]]%Q.
Proof.
  assert (Hk : (0 < 3)%nat) by lia.
  split; [exact Hk|].
  destruct (save_ted_feats_keeps_all Samples.fbank_args [[[1]]; [[2]]; [[3]]; [[4]]]%Q
              "dev" 3 Hk) as (events & Hrun & Hall & _).
  exists events. split; [exact Hrun|exact Hall].
Defined.

Lemma process_libri_feats_whole_witness :
  (0 < 4)%nat
  /\ exists feats featlen events,
       process_audios ["a.flac"; "b.flac"] Samples.fbank_args = Ok (feats, featlen)
       /\ process_libri_feats Samples.fbank_args ["a.flac"; "b.flac"] "train" 4
          = (events ++ [Save ("feats" +:+ "/" +:+ "train" +:+ "_featlen.npy") featlen], Ok ())
       /\ concat (dumped events) = feats.
Proof.
  assert (Hk : (0 < 4)%nat) by lia.
  split; [exact Hk|]. eexists _, _.
  assert (H : process_audios ["a.flac"; "b.flac"] Samples.fbank_args = Ok (_, _))
    by (vm_compute; reflexivity).
  destruct (process_libri_feats_whole Samples.fbank_args ["a.flac"; "b.flac"] "train" 4
              _ _ Hk H) as (events & Hrun & Hall & _).
  exists events. split; [exact H|]. split; [exact Hrun|exact Hall].
Defined.

(** ** More concrete runs of the model *)

#[local] Existing Instance Toy.backend.

Lemma Speller_loop_exit_witness :
  exists t state prev_char output rng',
    Speller_loop (K := Toy.backend) (Speller_init Toy.args_chars ∅) Toy.audio [4] 2
      Inference [] 2
      = Returns ((t, state, prev_char, output), rng')
    /\ t = Z.max 0 2
    /\ same_structure (shape_state Toy.args_chars) state = true
    /\ length output = S (Z.to_nat 2).
Proof.
  eexists _, _, _, _, _.
  assert (H : Speller_loop (K := Toy.backend) (Speller_init Toy.args_chars ∅) Toy.audio [4] 2
                Inference [] 2
              = Returns ((_, _, _, _), _)) by (vm_compute; reflexivity).
  split; [exact H|].
  exact (Speller_loop_exit (K := Toy.backend) Toy.args_chars ∅ Toy.audio [4] 2 Inference
           [] 2%nat _ _ _ _ _ H).
Defined.

Lemma Speller_ignores_teacher_without_forcing_witness :
  (teacher_forcing_rate
     (Speller_args (Speller_init (K := Samples.counting_backend) Samples.args_sampling ∅))
   <= 0)%Q
  /\ (forall r, 0 <= (random_uniform (Backend := Samples.counting_backend) r).1)%Q
  /\ Speller_call (K := Samples.counting_backend)
       (Speller_init (K := Samples.counting_backend) Samples.args_sampling ∅)
       Toy.audio [4] 2 (Training []) 0%nat 2
     = Speller_call (K := Samples.counting_backend)
         (Speller_init (K := Samples.counting_backend) Samples.args_sampling ∅)
         Toy.audio [4] 2 (Training [[5]; [2]]) 0%nat 2.
Proof.
  assert (Hrate : (teacher_forcing_rate
                     (Speller_args
                        (Speller_init (K := Samples.counting_backend)
                           Samples.args_sampling ∅)) <= 0)%Q)
    by (vm_compute; discriminate).
  assert (Hdraw : (forall r, 0 <= (random_uniform (Backend := Samples.counting_backend) r).1)%Q).
  { intros r. unfold Qle. simpl. lia. }
  split; [exact Hrate|]. split; [exact Hdraw|].
  exact (Speller_ignores_teacher_without_forcing (K := Samples.counting_backend)
           (Speller_init (K := Samples.counting_backend) Samples.args_sampling ∅)
           Toy.audio [4] 2 [] [[5]; [2]] 0%nat 2%nat Hrate Hdraw).
Defined.


Lemma entry_summary_width_witness :
  1 <= num_dec_layers Toy.args_chars
  /\ 0 <= dec_units Toy.args_chars
  /\ _get_hidden_state (Speller_init Toy.args_chars ∅)
       (zero_state (_build_decoder_cell Toy.args_chars) 1)
     = Returns (Rank2 (zeros 1 (Z.to_nat (dec_units Toy.args_chars
                                          * num_dec_layers Toy.args_chars)))).
Proof.
  assert (HL : 1 <= num_dec_layers Toy.args_chars) by (vm_compute; discriminate).
  assert (Hu : 0 <= dec_units Toy.args_chars) by (vm_compute; discriminate).
  split; [exact HL|]. split; [exact Hu|].
  exact (entry_summary_width (K := Toy.backend) Toy.args_chars ∅ 1 HL Hu).
Defined.

Lemma loss_ignores_padded_logits_witness :
  agree_off_padding [[[1; 2; 3; 4; 5; 6]; [6; 5; 4; 3; 2; 1]]]%Q
    [[[1; 2; 3; 4; 5; 6]; [9; 9; 9; 9; 9; 9]]]%Q [[2; 0]]
  /\ class_width [[[1; 2; 3; 4; 5; 6]; [6; 5; 4; 3; 2; 1]]]%Q (vocab_size Toy.args)
  /\ class_width [[[1; 2; 3; 4; 5; 6]; [9; 9; 9; 9; 9; 9]]]%Q (vocab_size Toy.args)
  /\ exists loss loss',
       _get_loss (K := Toy.backend)
         (LAS_init Toy.args (Listener_init Toy.args) (Speller_init Toy.args ∅) ∅ ∅)
         [[[1; 2; 3; 4; 5; 6]; [6; 5; 4; 3; 2; 1]]]%Q [[2; 0]] [1; 0] = Returns loss
       /\ _get_loss (K := Toy.backend)
            (LAS_init Toy.args (Listener_init Toy.args) (Speller_init Toy.args ∅) ∅ ∅)
            [[[1; 2; 3; 4; 5; 6]; [9; 9; 9; 9; 9; 9]]]%Q [[2; 0]] [1; 0] = Returns loss'
       /\ (loss == loss')%Q.
Proof.
  assert (H : agree_off_padding [[[1; 2; 3; 4; 5; 6]; [6; 5; 4; 3; 2; 1]]]%Q
                [[[1; 2; 3; 4; 5; 6]; [9; 9; 9; 9; 9; 9]]]%Q [[2; 0]]).
  { repeat constructor. intros Hne. by destruct Hne. }
  assert (Hw : class_width [[[1; 2; 3; 4; 5; 6]; [6; 5; 4; 3; 2; 1]]]%Q (vocab_size Toy.args))
    by (repeat constructor).
  assert (Hw' : class_width [[[1; 2; 3; 4; 5; 6]; [9; 9; 9; 9; 9; 9]]]%Q (vocab_size Toy.args))
    by (repeat constructor).
  split; [exact H|]. split; [exact Hw|]. split; [exact Hw'|].
  exact (loss_ignores_padded_logits (K := Toy.backend)
           (LAS_init Toy.args (Listener_init Toy.args) (Speller_init Toy.args ∅) ∅ ∅)
           _ _ _ [1; 0] [1; 0] H Hw Hw').
Defined.
